(** * Augenblick and Rabin (2019), Table 1: likelihood and sandwich estimator

    A shallow embedding of the notebook
    [augenblick-rabin-2019/code/table_1.ipynb]: the data preparation, the
    Tobit-corrected likelihood [negloglike], the optimisation step and the
    cluster-robust standard errors.

    Conventions of the embedding.

    - A numpy [float64] is a real number of the Standard Library.  A value of
      type [option R] that is [None] stands for a computation that went
      through a non-finite intermediate ([nan] or [inf]) or raised an
      exception; the embedding follows the finite values only and ignores
      rounding and overflow.
    - One-dimensional arrays are sequences; the arrays handed to the
      differentiation and linear-algebra routines are MathComp row vectors and
      matrices over the reals.
    - The routines of scipy, autograd and numpy that the notebook calls but
      does not define ([norm.cdf], the Nelder-Mead update, [autograd.grad],
      [autograd.hessian]) are parameters of the development.
    - What [negloglike] reads is a matter of its text: for that question
      the function is also given as a syntax tree, run by a small
      interpreter with Python's rules for names, and shown to compute the
      function of the embedding. *)

From HB Require Import structures.
From Stdlib Require Import Reals Lra ZArith String.
From Stdlib Require Import Epsilon FunctionalExtensionality.
From mathcomp Require Import ssreflect ssrfun ssrbool eqtype ssrnat seq choice.
From mathcomp Require Import path fintype bigop ssralg matrix.

Set Implicit Arguments.
Unset Strict Implicit.
Unset Printing Implicit Defensive.
Set Warnings "-rewrite-rw,-redundant-canonical-projection".

Import GRing.Theory.
Delimit Scope R_scope with Re.
Local Open Scope R_scope.

(** ** The reals as a MathComp field

    The matrix library needs the algebraic structure of the scalars; the
    instances below expose the field of the Standard Library's reals. *)

Definition eqr (x y : R) : bool := if Req_dec_T x y then true else false.

Lemma eqrP : Equality.axiom eqr.
Proof. by move=> x y; rewrite /eqr; case: Req_dec_T => H; constructor. Qed.

HB.instance Definition _ := hasDecEq.Build R eqrP.

Fact inhR : inhabited R.
Proof. exact: (inhabits 0). Qed.

Definition pickR (P : pred R) (n : nat) : option R :=
  let x := epsilon inhR P in if P x then Some x else None.

Fact pickR_some P n x : pickR P n = Some x -> P x.
Proof. by rewrite /pickR; case: ifP => // Px [<-]. Qed.

Fact pickR_ex (P : pred R) : (exists x : R, P x) -> exists n, pickR P n.
Proof.
by move=> exP; exists 0%N; rewrite /pickR (epsilon_spec inhR P exP).
Qed.

Fact pickR_ext (P Q : pred R) : P =1 Q -> pickR P =1 pickR Q.
Proof.
move=> PQ n; rewrite /pickR.
by have -> : P = Q by apply: functional_extensionality.
Qed.

HB.instance Definition _ := hasChoice.Build R pickR_some pickR_ex pickR_ext.

HB.instance Definition _ := GRing.isZmodule.Build R
  (fun x y z => esym (Rplus_assoc x y z)) Rplus_comm Rplus_0_l Rplus_opp_l.

Fact R1_neq0 : 1 != 0 :> R.
Proof. by apply/eqP; exact: R1_neq_R0. Qed.

HB.instance Definition _ := GRing.Zmodule_isComNzRing.Build R
  (fun x y z => esym (Rmult_assoc x y z)) Rmult_comm Rmult_1_l
  Rmult_plus_distr_r R1_neq0.

Definition unitR : pred R := fun x => x != 0.

Fact mulVR : {in unitR, left_inverse 1 Rinv Rmult}.
Proof. by move=> x /eqP x0; rewrite Rinv_l. Qed.

Fact unitRP (x y : R) : y * x = 1 -> unitR x.
Proof.
move=> yx1; apply/eqP => x0; move: yx1; rewrite x0 Rmult_0_r => /esym.
exact: R1_neq_R0.
Qed.

Fact invR_out : {in predC unitR, Rinv =1 id}.
Proof. by move=> x; rewrite inE /unitR negbK => /eqP ->; exact: Rinv_0. Qed.

HB.instance Definition _ := GRing.ComNzRing_hasMulInverse.Build R
  mulVR unitRP invR_out.

Fact fieldR : GRing.field_axiom R.
Proof. by []. Qed.

HB.instance Definition _ := GRing.ComUnitRing_isField.Build R fieldR.

(** ** Partial computations *)

Notation "'let?' x ':=' m 'in' k" := (obind (fun x => k) m)
  (at level 10, x name, m at level 100, k at level 200,
   format "'[v' 'let?'  x  ':='  m  'in' '/' k ']'").

(** [oseq] collects the entries of an array; one undefined entry makes the
    array undefined. *)
Fixpoint oseq (T : Type) (s : seq (option T)) : option (seq T) :=
  if s is x :: s' then
    let? y := x in let? ys := oseq s' in Some (y :: ys)
  else Some [::].

(** ** Elementary numeric operations of numpy *)

Definition Rltb (x y : R) : bool := if Rlt_dec x y then true else false.

Definition Rleb (x y : R) : bool := if Rle_dec x y then true else false.

(** True division [x / y] of floats: a zero divisor gives [inf] or [nan]. *)
Definition np_div (x y : R) : option R :=
  if y == 0 then None else Some (x / y).

(** A float holding an integer value. *)
Definition is_integer (y : R) : bool := frac_part y == 0.

(** [x ** y] on floats, as IEEE [pow]: anything to the power 0 is 1, a
    positive base is raised by exponential and logarithm, a zero base gives 0
    for a positive exponent and [inf] for a negative one, a negative base is
    defined at integer exponents only. *)
Definition np_power (x y : R) : option R :=
  if y == 0 then Some 1
  else if Rltb 0 x then Some (Rpower x y)
  else if x == 0 then (if Rltb 0 y then Some 0 else None)
  else if is_integer y then
    Some (if Z.even (Int_part y) then Rpower (- x) y else - Rpower (- x) y)
  else None.

(** [anp.log]: the logarithm of zero is [-inf], of a negative number [nan]. *)
Definition anp_log (x : R) : option R :=
  if Rltb 0 x then Some (ln x) else None.

(** [np.sqrt]: the square root of a negative number is [nan]. *)
Definition np_sqrt (x : R) : option R :=
  if Rleb 0 x then Some (sqrt x) else None.

(** [norm.pdf(x, loc, scale)]: the Gaussian density with mean [loc] and
    standard deviation [scale]; scipy returns [nan] unless [scale > 0]. *)
Definition gaussian (x loc scale : R) : R :=
  exp (- ((x - loc) / scale) ^ 2 / 2) / (scale * sqrt (2 * PI)).

Definition norm_pdf (x loc scale : R) : option R :=
  if Rltb 0 scale then Some (gaussian x loc scale) else None.

(** ** Data preparation (cells 2 to 5) *)

(** A row of [decisions_data.dta], with the columns the notebook reads. *)
Record decision := Decision {
  d_wid : nat;
  d_netdistance : R;
  d_wage : R;
  d_today : R;
  d_prediction : R;
  d_workdone1 : R;
  d_effort : R;
  d_bonusoffered : R
}.

Definition tuple_of_decision (d : decision) :=
  (d_wid d, d_netdistance d, d_wage d, d_today d, d_prediction d,
   d_workdone1 d, d_effort d, d_bonusoffered d).

Definition decision_of_tuple t : decision :=
  let: (w, nd, wg, td, pr, wd, e, b) := t in Decision w nd wg td pr wd e b.

Lemma tuple_of_decisionK : cancel tuple_of_decision decision_of_tuple.
Proof. by case. Qed.

HB.instance Definition _ :=
  Equality.copy decision (can_type tuple_of_decisionK).

(** A row of the cleaned table [dt] (the nine columns of [keep]). *)
Record observation := Observation {
  wid : nat;
  netdistance : R;
  wage : R;
  today : R;
  prediction : R;
  pb : R;
  effort : R;
  ind_effort10 : R;
  ind_effort110 : R
}.

Definition tuple_of_observation (r : observation) :=
  (wid r, netdistance r, wage r, today r, prediction r, pb r, effort r,
   ind_effort10 r, ind_effort110 r).

Definition observation_of_tuple t : observation :=
  let: (w, nd, wg, td, pr, p, e, i10, i110) := t in
  Observation w nd wg td pr p e i10 i110.

Lemma tuple_of_observationK : cancel tuple_of_observation observation_of_tuple.
Proof. by case. Qed.

HB.instance Definition _ :=
  Equality.copy observation (can_type tuple_of_observationK).

(** [(b).astype(int)] followed by the promotion to float in arithmetic. *)
Definition astype_int (b : bool) : R := if b then 1 else 0.

Definition prepare (d : decision) : observation :=
  {| wid := d_wid d;
     netdistance := d_netdistance d;
     wage := d_wage d;
     today := d_today d;
     prediction := d_prediction d;
     pb := d_workdone1 d / 10;
     effort := d_effort d;
     ind_effort10 := astype_int (d_effort d == 10);
     ind_effort110 := astype_int (d_effort d == 110) |}.

(** The cleaned dataset: subjects listed in [ind_keep], no bonus offered,
    dummies added. *)
Definition clean (decisions : seq decision) (ind_keep : seq nat)
  : seq observation :=
  let dt1 := [seq d <- decisions | d_wid d \in ind_keep] in
  let dt2 := [seq d <- dt1 | d_bonusoffered d != 1] in
  [seq prepare d | d <- dt2].

(** The eight arguments of the likelihood besides [params]: the notebook
    hands over eight arrays with one entry per row of [dt]; a value of
    [args_row] holds the eight entries of one row. *)
Record args_row := ArgsRow {
  a_netdistance : R;
  a_wage : R;
  a_today : R;
  a_prediction : R;
  a_pb : R;
  a_effort : R;
  a_ind_effort10 : R;
  a_ind_effort110 : R
}.

Definition tuple_of_args_row (a : args_row) :=
  (a_netdistance a, a_wage a, a_today a, a_prediction a, a_pb a, a_effort a,
   a_ind_effort10 a, a_ind_effort110 a).

Definition args_row_of_tuple t : args_row :=
  let: (nd, wg, td, pr, p, e, i10, i110) := t in
  ArgsRow nd wg td pr p e i10 i110.

Lemma tuple_of_args_rowK : cancel tuple_of_args_row args_row_of_tuple.
Proof. by case. Qed.

HB.instance Definition _ :=
  Equality.copy args_row (can_type tuple_of_args_rowK).

(** [columns]: the order in which the columns of [dt] are handed over. *)
Definition columns (x : observation) : args_row :=
  ArgsRow (netdistance x) (wage x) (today x) (prediction x) (pb x)
          (effort x) (ind_effort10 x) (ind_effort110 x).

Definition mle_args (dt : seq observation) : seq args_row :=
  [seq columns x | x <- dt].

(** ** The likelihood (cell 6) *)

Record theta := Theta {
  beta : R;
  betahat : R;
  delta : R;
  gamma : R;
  phi : R;
  alpha : R;
  sigma : R
}.

(** [beta, betahat, delta, gamma, phi, alpha, sigma = params]: the unpacking
    raises [ValueError] unless [params] has seven entries. *)
Definition unpack (params : seq R) : option theta :=
  if params is [:: b; bh; d; g; p; a; s] then Some (Theta b bh d g p a s)
  else None.

Definition pack (th : theta) : seq R :=
  [:: beta th; betahat th; delta th; gamma th; phi th; alpha th; sigma th].

(** The parameter vector [th] with its first component replaced by [b]. *)
Definition with_beta (b : R) (th : theta) : theta :=
  Theta b (betahat th) (delta th) (gamma th) (phi th) (alpha th) (sigma th).

(** The predicted choice coming from the optimality condition. *)
Definition predchoice (th : theta) (a : args_row) : option R :=
  let? dn := np_power (delta th) (a_netdistance a) in
  let? bt := np_power (beta th) (a_today a) in
  let? bp := np_power (betahat th) (a_prediction a) in
  let? e := np_div 1 (gamma th - 1) in
  let? v := np_power (phi th * dn * bt * bp * a_wage a) e in
  Some (v - a_pb a * alpha th).

(** The small values that replace a probability of 0 or 1. *)
Definition tiny : R := 1 / 10000.

Definition clamp (p : R) : R :=
  let p1 := if p == 0 then tiny else p in
  if p1 == 1 then 1 - tiny else p1.

Section Likelihood.

(** [norm.cdf], the cumulative distribution function of the standard normal. *)
Variable Phi : R -> R.

(** The weights of the interior, lower-boundary and upper-boundary terms. *)
Definition branch_weights (a : args_row) : R * R * R :=
  (1 - a_ind_effort10 a - a_ind_effort110 a, a_ind_effort10 a,
   a_ind_effort110 a).

(** The probability of the observed effort, with the Tobit correction. *)
Definition prob (th : theta) (a : args_row) : option R :=
  let? pc := predchoice th a in
  let? dens := norm_pdf (a_effort a) pc (sigma th) in
  let? z := np_div (pc - a_effort a) (sigma th) in
  Some ((1 - a_ind_effort10 a - a_ind_effort110 a) * dens
        + a_ind_effort10 a * (1 - Phi z)
        + a_ind_effort110 a * Phi z).

Definition sumR (s : seq R) : R := foldr Rplus 0 s.

Definition negloglike (params : seq R) (args : seq args_row) : option R :=
  let? th := unpack params in
  let? ps := oseq [seq prob th a | a <- args] in
  let? ls := oseq [seq anp_log (clamp p) | p <- ps] in
  Some (- sumR ls).

(** The log-likelihood, which the notebook reports as [-sol.fun]. *)
Definition loglike (params : seq R) (args : seq args_row) : option R :=
  omap Ropp (negloglike params args).

End Likelihood.

(** ** Arrays as row vectors *)

Definition seq_of_rV (n : nat) (v : 'rV[R]_n) : seq R :=
  [seq v ord0 i | i <- enum 'I_n].

Definition rV_of_seq (n : nat) (s : seq R) : 'rV[R]_n :=
  (\row_(i < n) nth 0 s i)%R.

(** ** The optimisation step (cell 7) *)

(** Starting parameters for the algorithm. *)
Definition beta_init : R := 8 / 10.
Definition betahat_init : R := 1.
Definition delta_init : R := 1.
Definition gamma_init : R := 2.
Definition phi_init : R := 500.
Definition alpha_init : R := 7.
Definition sigma_init : R := 40.

Definition par_init : seq R :=
  [:: beta_init; betahat_init; delta_init; gamma_init; phi_init; alpha_init;
      sigma_init].

(** The iteration cap handed to the optimiser, [options={'maxiter': 1500}]. *)
Definition maxiter : nat := 1500.

(** The pieces of a simplex method on [n] parameters that the driver loop
    calls: how the simplex is set up around the starting point, the
    termination test on the simplex, one update of the simplex (reflection,
    expansion, contraction or shrink) and the best vertex. *)
Record simplex_method (n : nat) := SimplexMethod {
  sm_simplex : Type;
  sm_init : ('rV[R]_n -> option R) -> 'rV[R]_n -> sm_simplex;
  sm_converged : ('rV[R]_n -> option R) -> sm_simplex -> bool;
  sm_update : ('rV[R]_n -> option R) -> sm_simplex -> sm_simplex;
  sm_best : sm_simplex -> 'rV[R]_n
}.

(** The fields of [OptimizeResult] that are read or bounded: the solution
    [x] and the number of iterations [nit]. *)
Record OptimizeResult := MkOptimizeResult {
  x : seq R;
  nit : nat
}.

Section Driver.

Variables (n : nat) (M : simplex_method n) (f : 'rV[R]_n -> option R).

(** Modelled from the spec: the Nelder-Mead driver loop of
    [scipy.optimize.minimize], which is not part of the repository.  The
    simplex is updated while the iteration counter is below the cap and the
    termination test fails; [budget] is the distance of the counter [it] to
    the cap. *)
Fixpoint nm_loop (budget it : nat) (s : sm_simplex M) : sm_simplex M * nat :=
  if budget is b.+1 then
    if sm_converged f s then (s, it) else nm_loop b it.+1 (sm_update f s)
  else (s, it).

(** One turn of the loop with cap [cap], as a transition on the pairs of a
    simplex and an iteration counter. *)
Inductive nm_step (cap : nat) :
  sm_simplex M * nat -> sm_simplex M * nat -> Prop :=
| NmStep s it :
    (it < cap)%N -> sm_converged f s = false ->
    nm_step cap (s, it) (sm_update f s, it.+1).

(** [nm_run cap k st st']: [k] turns of the loop lead from [st] to [st']. *)
Inductive nm_run (cap : nat) :
  nat -> sm_simplex M * nat -> sm_simplex M * nat -> Prop :=
| NmRun0 st : nm_run cap 0 st st
| NmRunS k st1 st2 st3 :
    nm_step cap st1 st2 -> nm_run cap k st2 st3 -> nm_run cap k.+1 st1 st3.

(** A state at which the loop exits. *)
Definition nm_exit (cap : nat) (st : sm_simplex M * nat) : bool :=
  (cap <= st.2)%N || sm_converged f st.1.

Definition nm_minimize (x0 : 'rV[R]_n) (cap : nat) : OptimizeResult :=
  let st := nm_loop cap 0 (sm_init M f x0) in
  {| x := seq_of_rV (sm_best st.1); nit := st.2 |}.

End Driver.

Arguments nm_loop {n} M f budget it s.
Arguments nm_step {n} M f cap _ _.
Arguments nm_run {n} M f cap _ _ _.
Arguments nm_exit {n} M f cap st.
Arguments nm_minimize {n} M f x0 cap.

(** [opt.minimize(fun, x0, args, method='Nelder-Mead', options)]: the
    objective is called on arrays of the shape of [x0]. *)
Definition minimize (nelder_mead : forall n, simplex_method n)
    (func : seq R -> option R) (x0 : seq R) (cap : nat) : OptimizeResult :=
  nm_minimize (nelder_mead (size x0))
    (fun p => func (seq_of_rV p)) (rV_of_seq (size x0) x0) cap.

(** ** Standard errors (cells 9 to 14) *)

(** [np.linalg.inv]: raises [LinAlgError] on a singular matrix. *)
Definition linalg_inv (n : nat) (A : 'M[R]_n) : option 'M[R]_n :=
  if A \in unitmx then Some (invmx A) else None.

(** [np.diag]: the diagonal of a square matrix. *)
Definition np_diag (n : nat) (V : 'M[R]_n) : seq R :=
  [seq V i i | i <- enum 'I_n].

(** [gradients.groupby("wid").sum()]: one row per individual, in increasing
    order of the identifier, holding the sum of the rows of that individual. *)
Definition groupby_sum (n : nat) (rows : seq (nat * 'rV[R]_n))
  : seq (nat * 'rV[R]_n) :=
  [seq (w, (\sum_(r <- rows | r.1 == w) r.2)%R)
  | w <- sort leq (undup [seq r.1 | r <- rows])].

(** Division of Python integers, [a / b]: [ZeroDivisionError] when [b = 0]. *)
Definition py_truediv (a b : Z) : option R :=
  if Z.eqb b 0 then None else Some (IZR a / IZR b).

(** [(Nobs-1)/(Nobs-K) * Nindiv/(Nindiv-1)], read from left to right. *)
Definition adjustment (nobs k nindiv : nat) : option R :=
  let? q := py_truediv (Z.of_nat nobs - 1) (Z.of_nat nobs - Z.of_nat k) in
  np_div (q * INR nindiv) (IZR (Z.of_nat nindiv - 1)).

Section Estimation.

Variable Phi : R -> R.

(** The simplex method behind [method='Nelder-Mead']. *)
Variable nelder_mead : forall n, simplex_method n.

(** [autograd.grad] and [autograd.hessian], differentiating a function with
    respect to its first argument. *)
Variable grad :
  forall n, ('rV[R]_n -> option R) -> 'rV[R]_n -> option 'rV[R]_n.
Variable hessian :
  forall n, ('rV[R]_n -> option R) -> 'rV[R]_n -> option 'M[R]_n.

Variable dt : seq observation.

Definition sol : OptimizeResult :=
  minimize nelder_mead (fun p => negloglike Phi p (mle_args dt))
    par_init maxiter.

Definition res : seq R := x sol.

(** Number of parameters. *)
Definition K : nat := size res.

Definition Hfun (params : seq R) (args : seq args_row)
  : option 'M[R]_(size params) :=
  hessian (fun p => negloglike Phi (seq_of_rV p) args)
    (rV_of_seq (size params) params).

Definition gradfun (params : seq R) (args : seq args_row)
  : option 'rV[R]_(size params) :=
  grad (fun p => negloglike Phi (seq_of_rV p) args)
    (rV_of_seq (size params) params).

Definition hess : option 'M[R]_K := Hfun res (mle_args dt).

Definition hess_inv : option 'M[R]_K := let? H := hess in linalg_inv H.

(** Gradient contribution of each row, indexed by the individual. *)
Definition gradients : option (seq (nat * 'rV[R]_K)) :=
  oseq [seq omap (pair (wid r)) (gradfun res [:: columns r]) | r <- dt].

Definition gradients_indiv : option (seq (nat * 'rV[R]_K)) :=
  omap (@groupby_sum K) gradients.

(** Sum over individuals of the outer products. *)
Definition G : option 'M[R]_K :=
  let? gi := gradients_indiv in
  Some (\sum_(g <- gi) g.2^T *m g.2)%R.

(** The Hessian of the log-likelihood at the estimate, and the score of one
    observation: the gradient of its log-likelihood at the estimate. *)
Definition hess_loglike : option 'M[R]_K :=
  hessian (fun p => loglike Phi (seq_of_rV p) (mle_args dt))
    (rV_of_seq K res).

Definition score (r : observation) : option 'rV[R]_K :=
  grad (fun p => loglike Phi (seq_of_rV p) [:: columns r])
    (rV_of_seq K res).

Definition Nobs : nat := size dt.

Definition Nindiv : nat := size (undup [seq wid r | r <- dt]).

Definition adj : option R := adjustment Nobs K Nindiv.

Definition varcov_estimates : option 'M[R]_K :=
  let? Hi := hess_inv in
  let? Gm := G in
  let? a := adj in
  Some (a *: (Hi *m Gm *m Hi))%R.

(** [np.sqrt(np.diag(varcov_estimates))], entry by entry. *)
Definition se_cluster : option (seq (option R)) :=
  let? V := varcov_estimates in
  Some [seq np_sqrt v | v <- np_diag V].

End Estimation.

(** ** Differentiation by finite differences

    An instance of the differentiation routines: what is assumed of them
    below can be met. *)

Definition orow (n : nat) (e : 'I_n -> option R) : option 'rV[R]_n :=
  if [forall i, e i] then Some (\row_i odflt 0 (e i))%R else None.

Definition omatrix (n : nat) (e : 'I_n -> 'I_n -> option R)
  : option 'M[R]_n :=
  if [forall i, forall j, e i j] then
    Some (\matrix_(i, j) odflt 0 (e i j))%R
  else None.

(** Forward differences with step 1 along the coordinate axes. *)
Definition fd_grad (n : nat) (f : 'rV[R]_n -> option R) (v : 'rV[R]_n)
  : option 'rV[R]_n :=
  orow (fun i =>
    let? a := f (v + delta_mx ord0 i)%R in
    let? b := f v in
    Some (a - b)).

Definition fd_hessian (n : nat) (f : 'rV[R]_n -> option R) (v : 'rV[R]_n)
  : option 'M[R]_n :=
  omatrix (fun i j =>
    let? a := f (v + delta_mx ord0 i + delta_mx ord0 j)%R in
    let? b := f (v + delta_mx ord0 i)%R in
    let? c := f (v + delta_mx ord0 j)%R in
    let? d := f v in
    Some (a - b - c + d)).

(** The logarithm of the guarded probability of one row, the term that
    [anp.sum] adds up. *)
Definition row_loglike (Phi : R -> R) (th : theta) (a : args_row) : option R :=
  let? p := prob Phi th a in anp_log (clamp p).

(** ** Hypothesis tests and rounding (cells 15 and 16) *)

(** [norm.cdf(x, loc, scale)]: like the density, [nan] unless [scale > 0]. *)
Definition norm_cdf (Phi : R -> R) (v loc scale : R) : option R :=
  if Rltb 0 scale then Some (Phi ((v - loc) / scale)) else None.

(** [2*(1-norm.cdf(np.abs(z),0,1))]: the p-value of a z statistic. *)
Definition pvalue (Phi : R -> R) (z : R) : option R :=
  let? c := norm_cdf Phi (Rabs z) 0 1 in
  Some (2 * (1 - c)).

(** [(est - null) / se] for one parameter, [se] being possibly [nan]. *)
Definition zvalue (est null : R) (se : option R) : option R :=
  let? s := se in np_div (est - null) s.

Section Tests.

Variable Phi : R -> R.
Variable nelder_mead : forall n, simplex_method n.
Variable grad :
  forall n, ('rV[R]_n -> option R) -> 'rV[R]_n -> option 'rV[R]_n.
Variable hessian :
  forall n, ('rV[R]_n -> option R) -> 'rV[R]_n -> option 'M[R]_n.
Variable dt : seq observation.

(** [(np.array(res[0:3])-1)/np.array(se_cluster[0:3])]: the statistics for
    beta, betahat and delta against 1. *)
Definition zvalues_1 : option (seq (option R)) :=
  let? se := se_cluster Phi nelder_mead grad hessian dt in
  Some [seq zvalue p.1 1 p.2
       | p <- zip (take 3 (res Phi nelder_mead dt)) (take 3 se)].

Definition pvalues_1 : option (seq (option R)) :=
  let? zs := zvalues_1 in
  Some [seq (let? z := oz in pvalue Phi z) | oz <- zs].

(** [res[5]/se_cluster[5]]: the statistic for alpha against 0. *)
Definition zvalue_a : option R :=
  let? se := se_cluster Phi nelder_mead grad hessian dt in
  if (5 < size se)%N && (5 < size (res Phi nelder_mead dt))%N then
    zvalue (nth 0 (res Phi nelder_mead dt) 5) 0 (nth None se 5)
  else None.

Definition pvalue_a : option R := let? z := zvalue_a in pvalue Phi z.

End Tests.

(** [np.rint]: the nearest integer, a tie going to the even one. *)
Definition np_rint (y : R) : Z :=
  let f := Int_part y in
  if Rltb (frac_part y) (1 / 2) then f
  else if Rltb (1 / 2) (frac_part y) then (f + 1)%Z
  else if Z.even f then f else (f + 1)%Z.

(** [np.round(v, 3)]: scale by 1000, round to the nearest integer, scale
    back. *)
Definition np_round3 (v : R) : R := IZR (np_rint (v * 1000)) / 1000.

(** ** [negloglike] as the interpreter runs it (cell 6)

    The claims about what the function reads are settled on the function as
    written: its syntax tree, evaluated with Python's rules for names.  A
    name assigned in the function or bound as a parameter is local; every
    other name is looked up in the global namespace of the notebook, where
    the imports of cell 1 live together with everything later cells define.
    The state of the interpreter also holds the state of numpy's global
    random generator. *)

HB.instance Definition _ := hasDecEq.Build string String.eqb_spec.

(** The imported objects that the function reaches: [autograd.numpy], its
    submodule [random] and [autograd.scipy.stats.norm]. *)
Inductive module := Anp | AnpRandom | Norm.

(** The library functions reached through them. *)
Inductive builtin := Where | Log | Sum | Rand | Pdf | Cdf.

(** Values: [None], a float, a one-dimensional array of floats, a module
    or a library function. *)
Inductive value :=
| VNone
| VNum (v : option R)
| VArr (s : seq (option R))
| VModule (m : module)
| VFun (f : builtin).

(** The interpreter state outside the function call. *)
Record world := World {
  globals : string -> option value;
  rng : nat
}.

(** Computations that read and change the state and may raise. *)
Definition py (A : Type) : Type := world -> option A * world.

Definition py_ret (A : Type) (a : A) : py A := fun w => (Some a, w).

Definition py_lift (A : Type) (o : option A) : py A := fun w => (o, w).

Definition py_bind (A B : Type) (m : py A) (k : A -> py B) : py B :=
  fun w => let: (o, w1) := m w in
           if o is Some a then k a w1 else (None, w1).

Notation "'do' x <- m ; k" := (py_bind m (fun x => k))
  (at level 200, x name, m at level 100, k at level 200).

Inductive operator := Add | Sub | Mult | Div | Pow | Eq.

(** Expressions and statements, after the node types of Python's [ast]. *)
Inductive expr :=
| Name (id : string)
| Constant (c : R)
| Attribute (e : expr) (attr : string)
| BinOp (left : expr) (op : operator) (right : expr)
| USub (operand : expr)
| Call0 (func : expr)
| Call1 (func : expr) (a1 : expr)
| Call3 (func : expr) (a1 a2 a3 : expr).

Inductive stmt :=
| Assign (target : string) (e : expr)
| AssignTuple (targets : seq string) (e : expr)
| Return (e : expr).

Record funcdef := FunctionDef {
  fn_args : seq string;
  fn_body : seq stmt
}.

Local Open Scope string_scope.

(** Attribute access, [AttributeError] otherwise. *)
Definition getattr (v : value) (attr : string) : option value :=
  match v with
  | VModule Anp =>
      if attr == "where" then Some (VFun Where)
      else if attr == "log" then Some (VFun Log)
      else if attr == "sum" then Some (VFun Sum)
      else if attr == "random" then Some (VModule AnpRandom)
      else None
  | VModule AnpRandom => if attr == "rand" then Some (VFun Rand) else None
  | VModule Norm =>
      if attr == "pdf" then Some (VFun Pdf)
      else if attr == "cdf" then Some (VFun Cdf)
      else None
  | _ => None
  end.

(** The right-hand sides of the assignments of the function of cell 6, in
    the order of the source, and the function itself. *)
Definition predchoice_expr : expr :=
  BinOp
    (BinOp
       (BinOp
          (BinOp
             (BinOp
                (BinOp (Name "phi") Mult
                   (BinOp (Name "delta") Pow (Name "netdistance")))
                Mult
                (BinOp (Name "beta") Pow (Name "today")))
             Mult
             (BinOp (Name "betahat") Pow (Name "prediction")))
          Mult (Name "wage"))
       Pow
       (BinOp (Constant 1) Div (BinOp (Name "gamma") Sub (Constant 1))))
    Sub
    (BinOp (Name "pb") Mult (Name "alpha")).

Definition prob_expr : expr :=
  let cdf_term :=
    Call1 (Attribute (Name "norm") "cdf")
      (BinOp (BinOp (Name "predchoice") Sub (Name "effort")) Div
         (Name "sigma")) in
  BinOp
    (BinOp
       (BinOp
          (BinOp (BinOp (Constant 1) Sub (Name "ind_effort10")) Sub
             (Name "ind_effort110"))
          Mult
          (Call3 (Attribute (Name "norm") "pdf")
             (Name "effort") (Name "predchoice") (Name "sigma")))
       Add
       (BinOp (Name "ind_effort10") Mult
          (BinOp (Constant 1) Sub cdf_term)))
    Add
    (BinOp (Name "ind_effort110") Mult cdf_term).

Definition guard0_expr : expr :=
  Call3 (Attribute (Name "anp") "where")
    (BinOp (Name "prob") Eq (Constant 0)) (Constant (1 / 10000))
    (Name "prob").

Definition guard1_expr : expr :=
  Call3 (Attribute (Name "anp") "where")
    (BinOp (Name "prob") Eq (Constant 1))
    (BinOp (Constant 1) Sub (Constant (1 / 10000))) (Name "prob").

Definition negll_expr : expr :=
  USub
    (Call1 (Attribute (Name "anp") "sum")
       (Call1 (Attribute (Name "anp") "log") (Name "prob"))).

Definition negloglike_def : funcdef :=
  {| fn_args := [:: "params"; "netdistance"; "wage"; "today"; "prediction";
                    "pb"; "effort"; "ind_effort10"; "ind_effort110"];
     fn_body :=
       [:: AssignTuple [:: "beta"; "betahat"; "delta"; "gamma"; "phi";
                           "alpha"; "sigma"] (Name "params");
           Assign "predchoice" predchoice_expr;
           Assign "prob" prob_expr;
           Assign "prob" guard0_expr;
           Assign "prob" guard1_expr;
           Assign "negll" negll_expr;
           Return (Name "negll")] |}.

(** A function that draws a number from the global generator, and one that
    reads the table of the notebook. *)
Definition draw_def : funcdef :=
  {| fn_args := [::];
     fn_body :=
       [:: Return
             (Call0 (Attribute (Attribute (Name "anp") "random") "rand"))]
  |}.

Definition peek_def : funcdef :=
  {| fn_args := [::]; fn_body := [:: Return (Name "dt")] |}.

(** The names the notebook imports and the function uses. *)
Definition imports : seq string := [:: "anp"; "norm"].

Definition imported (w : world) : Prop :=
  globals w "anp" = Some (VModule Anp)
  /\ globals w "norm" = Some (VModule Norm).

Local Close Scope string_scope.

(** *** Arithmetic on floats and arrays *)

(** An operation on floats; a [nan] operand gives [nan], except that a
    comparison with [nan] is false. *)
Definition lift2 (f : R -> R -> option R) (a b : option R) : option R :=
  let? u := a in let? v := b in f u v.

Definition elem_binop (op : operator) (a b : option R) : option R :=
  match op with
  | Add => lift2 (fun u v => Some (u + v)) a b
  | Sub => lift2 (fun u v => Some (u - v)) a b
  | Mult => lift2 (fun u v => Some (u * v)) a b
  | Div => lift2 np_div a b
  | Pow => lift2 np_power a b
  | Eq =>
      Some (astype_int (if (a, b) is (Some u, Some v) then u == v
                        else false))
  end.

(** Truth value of a float: zero is false, [nan] is true. *)
Definition truthy (c : option R) : bool :=
  if c is Some u then u != 0 else true.

Definition elem_where (c u v : option R) : option R :=
  if truthy c then u else v.

Definition elem_pdf (u loc scale : option R) : option R :=
  let? a := u in let? m := loc in let? s := scale in norm_pdf a m s.

(** Shapes: [None] for a float, [Some n] for an array of length [n]; two
    shapes are broadcast together when they are equal or one of them is a
    float or an array of length 1. *)
Definition vshape (v : value) : option (option nat) :=
  match v with
  | VNum _ => Some None
  | VArr s => Some (Some (size s))
  | _ => None
  end.

Definition join_shape (m n : option nat) : option (option nat) :=
  match m, n with
  | None, _ => Some n
  | _, None => Some m
  | Some a, Some b =>
      if a == b then Some (Some a)
      else if a == 1%N then Some (Some b)
      else if b == 1%N then Some (Some a)
      else None
  end.

Definition vnth (v : value) (i : nat) : option R :=
  match v with
  | VNum u => u
  | VArr s => if size s == 1%N then head None s else nth None s i
  | _ => None
  end.

Definition vbuild (sh : option nat) (g : nat -> option R) : value :=
  if sh is Some n then VArr (mkseq g n) else VNum (g 0%N).

(** Elementwise operations with broadcasting; [None] is the [TypeError] or
    [ValueError] of operands that do not fit. *)
Definition bcast1 (f : option R -> option R) (a : value) : option value :=
  let? sa := vshape a in
  Some (vbuild sa (fun i => f (vnth a i))).

Definition bcast2 (f : option R -> option R -> option R) (a b : value)
  : option value :=
  let? sa := vshape a in
  let? sb := vshape b in
  let? sh := join_shape sa sb in
  Some (vbuild sh (fun i => f (vnth a i) (vnth b i))).

Definition bcast3 (f : option R -> option R -> option R -> option R)
    (a b c : value) : option value :=
  let? sa := vshape a in
  let? sb := vshape b in
  let? sc := vshape c in
  let? sab := join_shape sa sb in
  let? sh := join_shape sab sc in
  Some (vbuild sh (fun i => f (vnth a i) (vnth b i) (vnth c i))).

(** [anp.sum]: the sum of the entries, [nan] if one of them is. *)
Definition vsum (a : value) : option value :=
  match a with
  | VNum u => Some (VNum u)
  | VArr s => Some (VNum (omap sumR (oseq s)))
  | _ => None
  end.

Section Interpreter.

(** [norm.cdf] on a float, and the numbers that the global generator
    returns in its successive states. *)
Variable Phi : R -> R.
Variable sample : nat -> R.

(** A call of a library function.  Only [rand] touches the state. *)
Definition apply_builtin (f : builtin) (args : seq value) : py value :=
  match f, args with
  | Where, [:: c; u; v] => py_lift (bcast3 elem_where c u v)
  | Log, [:: u] => py_lift (bcast1 (obind anp_log) u)
  | Sum, [:: u] => py_lift (vsum u)
  | Pdf, [:: u; loc; scale] => py_lift (bcast3 elem_pdf u loc scale)
  | Cdf, [:: u] => py_lift (bcast1 (omap Phi) u)
  | Rand, [::] =>
      fun w => (Some (VNum (Some (sample (rng w)))),
                World (globals w) (rng w).+1)
  | _, _ => py_lift None
  end.

(** Calling a value: [TypeError] unless it is a function. *)
Definition call_value (f : value) (args : seq value) : py value :=
  if f is VFun b then apply_builtin b args else py_lift None.

Section Frame.

(** The local names of the function being run, and its local variables. *)
Variable lnames : seq string.

(** A local name that is not bound raises [UnboundLocalError], a global one
    [NameError]. *)
Definition load_name (l : string -> option value) (id : string) : py value :=
  fun w => (if id \in lnames then l id else globals w id, w).

Fixpoint eval (l : string -> option value) (e : expr) : py value :=
  match e with
  | Name id => load_name l id
  | Constant c => py_ret (VNum (Some c))
  | Attribute e1 attr => do v <- eval l e1; py_lift (getattr v attr)
  | BinOp e1 op e2 =>
      do v1 <- eval l e1; do v2 <- eval l e2;
      py_lift (bcast2 (elem_binop op) v1 v2)
  | USub e1 => do v <- eval l e1; py_lift (bcast1 (omap Ropp) v)
  | Call0 f => do vf <- eval l f; call_value vf [::]
  | Call1 f e1 =>
      do vf <- eval l f; do v1 <- eval l e1; call_value vf [:: v1]
  | Call3 f e1 e2 e3 =>
      do vf <- eval l f; do v1 <- eval l e1; do v2 <- eval l e2;
      do v3 <- eval l e3; call_value vf [:: v1; v2; v3]
  end.

Definition update (l : string -> option value) (id : string) (v : value)
  : string -> option value :=
  fun id' => if id' == id then Some v else l id'.

Fixpoint update_all (l : string -> option value) (ids : seq string)
    (vs : seq value) : string -> option value :=
  match ids, vs with
  | id :: ids', v :: vs' => update_all (update l id v) ids' vs'
  | _, _ => l
  end.

(** Unpacking an array into [n] names: [ValueError] unless it has [n]
    entries. *)
Definition unpack_value (n : nat) (v : value) : option (seq value) :=
  if v is VArr s then
    if size s == n then Some [seq VNum u | u <- s] else None
  else None.

Fixpoint exec (body : seq stmt) (l : string -> option value) : py value :=
  match body with
  | [::] => py_ret VNone
  | Assign id e :: rest =>
      do v <- eval l e; exec rest (update l id v)
  | AssignTuple ids e :: rest =>
      do v <- eval l e; do vs <- py_lift (unpack_value (size ids) v);
      exec rest (update_all l ids vs)
  | Return e :: _ => eval l e
  end.

End Frame.

Definition assigned (st : stmt) : seq string :=
  match st with
  | Assign id _ => [:: id]
  | AssignTuple ids _ => ids
  | Return _ => [::]
  end.

Definition local_names (f : funcdef) : seq string :=
  fn_args f ++ flatten [seq assigned st | st <- fn_body f].

(** A call of [f] on positional arguments: [TypeError] unless there is
    one argument per parameter. *)
Definition call (f : funcdef) (args : seq value) : py value :=
  if size args == size (fn_args f) then
    exec (local_names f) (fn_body f)
      (update_all (fun=> None) (fn_args f) args)
  else py_lift None.

End Interpreter.

(** The arguments of the call of [negloglike] that the optimiser makes:
    the parameter array and the eight columns of [mle_args]. *)
Definition column (g : args_row -> R) (args : seq args_row) : value :=
  VArr [seq Some (g a) | a <- args].

Definition py_args (params : seq R) (args : seq args_row) : seq value :=
  [:: VArr [seq Some p | p <- params];
      column a_netdistance args; column a_wage args; column a_today args;
      column a_prediction args; column a_pb args; column a_effort args;
      column a_ind_effort10 args; column a_ind_effort110 args].

(** The float a call returned, [nan] and exceptions being [None]. *)
Definition as_number (o : option value) : option R :=
  if o is Some (VNum u) then u else None.

(** *** What an evaluation leaves untouched *)

Local Open Scope string_scope.

(** [framed lnames gl e]: outside the local names [lnames] the expression
    reads the global names [gl] only, and every call goes to an attribute
    other than [rand]. *)
Fixpoint framed (lnames gl : seq string) (e : expr) : bool :=
  let callee f :=
    if f is Attribute f1 attr then (attr != "rand") && framed lnames gl f1
    else false in
  match e with
  | Name id => (id \in lnames) || (id \in gl)
  | Constant _ => true
  | Attribute e1 _ => framed lnames gl e1
  | BinOp e1 _ e2 => framed lnames gl e1 && framed lnames gl e2
  | USub e1 => framed lnames gl e1
  | Call0 f => callee f
  | Call1 f e1 => callee f && framed lnames gl e1
  | Call3 f e1 e2 e3 =>
      [&& callee f, framed lnames gl e1, framed lnames gl e2
        & framed lnames gl e3]
  end.

Local Close Scope string_scope.

Definition expr_of (st : stmt) : expr :=
  match st with
  | Assign _ e => e
  | AssignTuple _ e => e
  | Return e => e
  end.

Definition framed_def (gl : seq string) (f : funcdef) : bool :=
  all (fun st => framed (local_names f) gl (expr_of st)) (fn_body f).

(** A computation that gives the same result in two states and changes
    neither. *)
Definition steady (A : Type) (m : py A) (w1 w2 : world) : Prop :=
  exists o, m w1 = (o, w1) /\ m w2 = (o, w2).

(** *** Arrays as rows

    [rep rows k v F]: the value [v] holds, for each row [a] of the table,
    the float [F a]; it is an array with one entry per row when [k] is
    true, and one float for all rows otherwise. *)
Definition rep (rows : seq args_row) (k : bool) (v : value)
    (F : args_row -> option R) : Prop :=
  if k then v = VArr [seq F a | a <- rows]
  else exists2 u, v = VNum u & forall a, F a = u.

(** [denotes Phi sample lnames rows w l e k F]: in the state [w] and with
    the local variables [l], the expression evaluates, without changing
    the state, to a value that holds [F a] for each row [a]. *)
Inductive denotes (Phi : R -> R) (sample : nat -> R) (lnames : seq string)
    (rows : seq args_row) (w : world) (l : string -> option value)
    (e : expr) (k : bool) (F : args_row -> option R) : Prop :=
  Denotes (v : value) of
    eval Phi sample lnames l e w = (Some v, w) & rep rows k v F.

(** ** Concrete inputs *)

(** A decision with an interior effort. *)
Definition decision0 : decision := Decision 1 0 1 1 0 0 50 0.

(** A parameter vector with a negative sigma, and a decision at the lower
    effort boundary. *)
Definition theta_neg : theta := Theta 1 1 1 2 1 0 (-1).

Definition decision10 : decision := Decision 1 0 1 0 0 0 10 0.

(** A cumulative distribution function that has reached 1 in floating point,
    and a row at the lower effort boundary: the likelihood of the row is
    exactly 0 and the guard replaces it. *)
Definition Phi_one : R -> R := fun=> 1.

Definition row10 : args_row := ArgsRow 0 1 0 0 0 10 1 0.

(** Differentiation routines whose result does not depend on the function:
    a zero gradient and a unit Hessian, to run the stages after the
    differentiation on their own. *)
Definition zero_grad (n : nat) (f : 'rV[R]_n -> option R) (v : 'rV[R]_n)
  : option 'rV[R]_n := Some 0%R.

Definition unit_hessian (n : nat) (f : 'rV[R]_n -> option R) (v : 'rV[R]_n)
  : option 'M[R]_n := Some 1%:M%R.

(** A routine that returns the value of the function times the identity
    matrix: it commutes with the change of sign of the function and gives
    an invertible matrix wherever the function is not zero. *)
Definition value_hessian (n : nat) (f : 'rV[R]_n -> option R)
    (v : 'rV[R]_n) : option 'M[R]_n :=
  let? y := f v in Some (y *: 1%:M)%R.

(** A simplex method that keeps the starting point. *)
Definition stationary_method (n : nat) : simplex_method n :=
  {| sm_simplex := 'rV[R]_n;
     sm_init := fun _ x0 => x0;
     sm_converged := fun _ _ => false;
     sm_update := fun _ s => s;
     sm_best := id |}.

(** Eight rows of two subjects. *)
Definition dataset8 : seq observation :=
  [seq prepare (Decision w 0 1 0 0 0 10 0)
  | w <- [:: 1; 1; 1; 1; 2; 2; 2; 2]%N].

(** The interpreter state right after the imports of cell 1, and a later
    state: a table [dt] has been defined and five numbers drawn. *)
Definition world0 : world :=
  {| globals := fun id =>
       if id == "anp"%string then Some (VModule Anp)
       else if id == "norm"%string then Some (VModule Norm)
       else None;
     rng := 0 |}.

Definition world1 : world :=
  {| globals := fun id =>
       if id == "dt"%string then Some (VArr [:: Some 1; Some 2])
       else globals world0 id;
     rng := 5 |}.

(** * Properties *)

(** ** Comparisons and the partial operations *)

Lemma RltbP (x y : R) : reflect (x < y) (Rltb x y).
Proof. by rewrite /Rltb; case: Rlt_dec => H; constructor. Qed.

Lemma RlebP (x y : R) : reflect (x <= y) (Rleb x y).
Proof. by rewrite /Rleb; case: Rle_dec => H; constructor. Qed.

Lemma Rltb_true (x y : R) : x < y -> Rltb x y = true.
Proof. by move/RltbP. Qed.

Lemma Rltb_false (x y : R) : y <= x -> Rltb x y = false.
Proof. by move=> yx; apply/RltbP => /Rlt_not_le. Qed.

Lemma eqr_false (x y : R) : x <> y -> (x == y) = false.
Proof. by move=> xy; apply/eqP. Qed.

Lemma np_power_0 (v : R) : np_power v 0 = Some 1.
Proof. by rewrite /np_power eqxx. Qed.

Lemma np_power_1 (v : R) : 0 < v -> np_power v 1 = Some v.
Proof.
move=> v0; rewrite /np_power eqr_false; first lra.
by rewrite Rltb_true // Rpower_1.
Qed.

Lemma np_div_def (u v : R) : v <> 0 -> np_div u v = Some (u / v).
Proof. by move=> v0; rewrite /np_div eqr_false. Qed.

Lemma norm_pdf_def (u loc scale : R) :
  0 < scale -> norm_pdf u loc scale = Some (gaussian u loc scale).
Proof. by move=> s0; rewrite /norm_pdf Rltb_true. Qed.

Lemma norm_pdf_undef (u loc scale : R) :
  scale <= 0 -> norm_pdf u loc scale = None.
Proof. by move=> s0; rewrite /norm_pdf Rltb_false. Qed.

(** ** The boundary dummies *)

Lemma clean_prepare decisions ind_keep r :
  r \in clean decisions ind_keep ->
  exists d, [/\ r = prepare d, d_wid d \in ind_keep & d_bonusoffered d <> 1].
Proof.
rewrite /clean; elim: decisions => [|d ds IH] //=.
case: ifP => [keep|_] //=; case: ifP => [/eqP nobonus|_] //=.
rewrite inE => /orP [/eqP ->|/IH //].
by exists d.
Qed.

Lemma dummies_of_prepare d :
  let a := columns (prepare d) in
  [\/ d_effort d = 10 /\ branch_weights a = (0, 1, 0),
      d_effort d = 110 /\ branch_weights a = (0, 0, 1)
    | [/\ d_effort d <> 10, d_effort d <> 110
        & branch_weights a = (1, 0, 0)]].
Proof.
rewrite /branch_weights /=.
case: (eqVneq (d_effort d) 10) => [e10|/eqP ne10].
  have ne : (10 : R) <> 110 by lra.
  constructor 1; split=> //; rewrite e10 (eqr_false ne) /=.
  by congr (_, _, _); lra.
case: (eqVneq (d_effort d) 110) => [e110|/eqP ne110].
  constructor 2; split=> //=.
  by congr (_, _, _); lra.
constructor 3; split=> //=.
by congr (_, _, _); lra.
Qed.

(** C9: in the cleaned dataset each boundary dummy is 0 or 1, the two are
    never both 1, exactly one of the three Tobit branches carries weight 1
    while the other two carry weight 0, and the weights sum to 1. *)
Theorem boundary_dummies_select_one_branch decisions ind_keep r :
  r \in clean decisions ind_keep ->
  [/\ ind_effort10 r = astype_int (effort r == 10)
      /\ ind_effort110 r = astype_int (effort r == 110),
      (ind_effort10 r = 0 \/ ind_effort10 r = 1)
      /\ (ind_effort110 r = 0 \/ ind_effort110 r = 1),
      ~ (ind_effort10 r = 1 /\ ind_effort110 r = 1),
      [\/ branch_weights (columns r) = (1, 0, 0),
          branch_weights (columns r) = (0, 1, 0)
        | branch_weights (columns r) = (0, 0, 1)]
    & let: (w0, w10, w110) := branch_weights (columns r) in
      w0 + w10 + w110 = 1].
Proof.
case/clean_prepare => d [-> _ _].
have := dummies_of_prepare d; rewrite /branch_weights /=.
set i10 := astype_int _; set i110 := astype_int _.
have bin b : astype_int b = 0 \/ astype_int b = 1 by case: b; [right|left].
case=> [[_ [e0 e1 e2]]|[_ [e0 e1 e2]]|[_ _ [e0 e1 e2]]];
  split=> //; try (by split; exact: bin);
  try (by rewrite e1 e2; case; lra); try lra.
- by constructor 2; rewrite e0 e1 e2.
- by constructor 3; rewrite e0 e1 e2.
- by constructor 1; rewrite e0 e1 e2.
Qed.

(** C9 on a table of one kept decision with an interior effort. *)
Lemma boundary_dummies_select_one_branch_witness :
  let r := prepare decision0 in
  r \in clean [:: decision0] [:: 1%N]
  /\ [/\ ~ (ind_effort10 r = 1 /\ ind_effort110 r = 1)
        & [\/ branch_weights (columns r) = (1, 0, 0),
              branch_weights (columns r) = (0, 1, 0)
            | branch_weights (columns r) = (0, 0, 1)]].
Proof.
have H : prepare decision0 \in clean [:: decision0] [:: 1%N].
  have ne : (0 : R) <> 1 by lra.
  by rewrite /clean /= (eqr_false ne) /= inE.
by have [_ _ excl one _] := boundary_dummies_select_one_branch H.
Defined.

(** ** The Tobit correction *)

Lemma prob_def Phi th a pc :
  0 < sigma th -> predchoice th a = Some pc ->
  prob Phi th a =
    let: (w0, w10, w110) := branch_weights a in
    let z := (pc - a_effort a) / sigma th in
    Some (w0 * gaussian (a_effort a) pc (sigma th)
          + w10 * (1 - Phi z) + w110 * Phi z).
Proof.
move=> s0 epc; rewrite /prob epc /= norm_pdf_def //= np_div_def //.
by move=> s_eq0; rewrite s_eq0 in s0; lra.
Qed.

(** C3, amended: for every observation of the cleaned dataset and every
    parameter vector with sigma > 0 at which the predicted effort e* is
    defined, the likelihood contribution is 1 - Phi((e* - e)/sigma) when
    effort is pinned at the minimum, Phi((e* - e)/sigma) when it is pinned at
    the maximum, and otherwise the Gaussian density of the observed effort
    around e* with standard deviation sigma. *)
Theorem prob_tobit_branches Phi decisions ind_keep th r pc :
  r \in clean decisions ind_keep ->
  0 < sigma th -> predchoice th (columns r) = Some pc ->
  let z := (pc - effort r) / sigma th in
  [/\ ind_effort10 r = 1 -> prob Phi th (columns r) = Some (1 - Phi z),
      ind_effort110 r = 1 -> prob Phi th (columns r) = Some (Phi z)
    & ind_effort10 r <> 1 -> ind_effort110 r <> 1 ->
      prob Phi th (columns r) = Some (gaussian (effort r) pc (sigma th))].
Proof.
case/clean_prepare => d [-> _ _] s0 epc /=; rewrite (prob_def _ s0 epc).
have := dummies_of_prepare d; rewrite /branch_weights /=.
set i10 := astype_int _; set i110 := astype_int _.
by case=> [[_ [e0 e1 e2]]|[_ [e0 e1 e2]]|[_ _ [e0 e1 e2]]];
  rewrite e0 e1 e2; split=> //; try lra; move=> *; congr Some; lra.
Qed.

Lemma kept_alone d : d_bonusoffered d = 0 ->
  prepare d \in clean [:: d] [:: d_wid d].
Proof.
move=> nobonus; have ne : (0 : R) <> 1 by lra.
by rewrite /clean /= inE eqxx /= nobonus (eqr_false ne) /= inE.
Qed.

Lemma exponent_gamma2 : 1 / (2 - 1) = 1.
Proof.
have -> : 2 - 1 = 1 by lra.
lra.
Qed.

Lemma predchoice_unit b td :
  0 < b -> td = 0 \/ td = 1 ->
  predchoice (Theta b 1 1 2 1 0 1) (ArgsRow 0 1 td 0 0 10 1 0)
  = Some (if td == 0 then 1 else b).
Proof.
move=> b0 etd; rewrite /predchoice /= !np_power_0 /=.
have -> : np_power b td = Some (if td == 0 then 1 else b).
  case: etd => ->; first by rewrite np_power_0 eqxx.
  by rewrite np_power_1 // eqr_false //; lra.
rewrite /= np_div_def; first lra.
rewrite exponent_gamma2.
case: ifP => _ /=.
  have -> : 1 * 1 * 1 * 1 * 1 = 1 by lra.
  by rewrite np_power_1; [lra | congr Some; lra].
have -> : 1 * 1 * b * 1 * 1 = b by lra.
by rewrite np_power_1; [|congr Some; lra].
Qed.

(** C3, as stated, fails: with sigma = -1 and the effort pinned at the
    minimum, the predicted effort is 1 and 1 - Phi((e* - e)/sigma) is a
    number, but the density factor of the unused interior term is undefined
    and so is the likelihood contribution. *)
Lemma prob_undefined_at_negative_sigma :
  let r := prepare decision10 in
  [/\ r \in clean [:: decision10] [:: 1%N],
      ind_effort10 r = 1,
      predchoice theta_neg (columns r) = Some 1,
      forall Phi, prob Phi theta_neg (columns r) = None
    & forall Phi,
        prob Phi theta_neg (columns r)
        <> Some (1 - Phi ((1 - effort r) / sigma theta_neg))].
Proof.
split; first exact: (@kept_alone decision10).
- by rewrite /= eqxx.
- have ne : (10 : R) <> 110 by lra.
  rewrite /columns /= /astype_int eqxx (eqr_false ne).
  rewrite /predchoice /= !np_power_0 /= np_div_def /=; first lra.
  rewrite exponent_gamma2.
  have -> : 1 * 1 * 1 * 1 * 1 = 1 by lra.
  by rewrite np_power_1; [lra | congr Some; lra].
- move=> Phi; rewrite /prob.
  case: (predchoice _ _) => [pc|] //=.
  by rewrite norm_pdf_undef //; lra.
- move=> Phi; rewrite /prob.
  case: (predchoice _ _) => [pc|] //=.
  by rewrite norm_pdf_undef //; lra.
Qed.

(** C3, amended, at a row pinned at the minimum, with sigma = 1 and a
    predicted effort of 1. *)
Lemma prob_tobit_branches_witness :
  let r := prepare decision10 in
  let th := Theta 1 1 1 2 1 0 1 in
  [/\ r \in clean [:: decision10] [:: 1%N], 0 < sigma th,
      predchoice th (columns r) = Some 1
    & forall Phi,
        prob Phi th (columns r) = Some (1 - Phi ((1 - effort r) / 1))].
Proof.
have r_in : prepare decision10 \in clean [:: decision10] [:: 1%N].
  exact: (@kept_alone decision10).
have s0 : 0 < sigma (Theta 1 1 1 2 1 0 1) by rewrite /=; lra.
have epc : predchoice (Theta 1 1 1 2 1 0 1) (columns (prepare decision10))
           = Some 1.
  have ne : (10 : R) <> 110 by lra.
  rewrite /columns /= /astype_int eqxx (eqr_false ne).
  have -> : 0 / 10 = 0 by lra.
  by rewrite (@predchoice_unit 1 0); [lra | left | rewrite eqxx].
split=> // Phi.
have [lower _ _] := prob_tobit_branches Phi r_in s0 epc.
by apply: lower; rewrite /= eqxx.
Defined.

(** ** The present-bias weight *)

(** C4: two parameter vectors that differ only in beta give the same
    predicted effort, and the same likelihood contribution, at every
    observation with today = 0; at some observation with today = 1 and two
    different values of beta the predicted efforts differ. *)
Theorem beta_only_for_today Phi :
  (forall th b' a, a_today a = 0 ->
     predchoice (with_beta b' th) a = predchoice th a
     /\ prob Phi (with_beta b' th) a = prob Phi th a)
  /\ (exists th b' a,
        [/\ b' <> beta th, a_today a = 1
          & predchoice (with_beta b' th) a <> predchoice th a]).
Proof.
split=> [th b' a td0|].
  have epc : predchoice (with_beta b' th) a = predchoice th a.
    by rewrite /predchoice /= td0 !np_power_0.
  by split=> //; rewrite /prob epc.
exists (Theta 1 1 1 2 1 0 1), 2, (ArgsRow 0 1 1 0 0 10 1 0).
split=> /=; [lra | by [] |].
rewrite (@predchoice_unit 1 1); [lra | by right |].
rewrite (@predchoice_unit 2 1); [lra | by right |].
by rewrite eqr_false; [lra | case; lra].
Qed.

(** C4 at a row with today = 0, for beta = 1 against beta = 2. *)
Lemma beta_only_for_today_witness :
  predchoice (with_beta 2 (Theta 1 1 1 2 1 0 1)) (ArgsRow 0 1 0 0 0 10 1 0)
  = predchoice (Theta 1 1 1 2 1 0 1) (ArgsRow 0 1 0 0 0 10 1 0).
Proof.
have [same _] := beta_only_for_today (fun=> 0).
by have [] := same (Theta 1 1 1 2 1 0 1) 2 (ArgsRow 0 1 0 0 0 10 1 0) erefl.
Defined.

(** ** The guard before the logarithm *)

Lemma loglike_def Phi params args :
  loglike Phi params args
  = (let? th := unpack params in
     let? ps := oseq [seq prob Phi th a | a <- args] in
     let? ls := oseq [seq anp_log (clamp p) | p <- ps] in
     Some (sumR ls)).
Proof.
rewrite /loglike /negloglike; case: (unpack params) => [th|] //=.
case: (oseq _) => [ps|] //=; case: (oseq _) => [ls|] //=.
by rewrite Ropp_involutive.
Qed.

Lemma tiny_bounds : 0 < tiny < 1.
Proof. by rewrite /tiny; lra. Qed.

Lemma clamp_0 : clamp 0 = tiny.
Proof.
have tb := tiny_bounds; have ne : tiny <> 1 by lra.
by rewrite /clamp eqxx (eqr_false ne).
Qed.

Lemma clamp_1 : clamp 1 = 1 - tiny.
Proof. by rewrite /clamp (eqr_false R1_neq_R0) eqxx. Qed.

Lemma clamp_id p : p <> 0 -> p <> 1 -> clamp p = p.
Proof. by move=> p0 p1; rewrite /clamp (eqr_false p0) (eqr_false p1). Qed.

Lemma clamp_unit_interval p : 0 <= p <= 1 -> 0 < clamp p < 1.
Proof.
move=> [p0 p1]; have tb := tiny_bounds.
case: (eqVneq p 0) => [->|/eqP pn0]; first by rewrite clamp_0.
case: (eqVneq p 1) => [->|/eqP pn1]; first by rewrite clamp_1; lra.
by rewrite clamp_id //; lra.
Qed.

Lemma anp_log_def v : 0 < v -> anp_log v = Some (ln v).
Proof. by move=> v0; rewrite /anp_log Rltb_true. Qed.

Lemma anp_log_undef v : v <= 0 -> anp_log v = None.
Proof. by move=> v0; rewrite /anp_log Rltb_false. Qed.

Lemma oseq_map_some (T : eqType) (U : Type) (g : T -> option U) h s :
  (forall v, v \in s -> g v = Some (h v)) ->
  oseq [seq g v | v <- s] = Some [seq h v | v <- s].
Proof.
elim: s => [|v s IH] //= all_def.
rewrite all_def ?inE ?eqxx //= IH // => w w_in.
by apply: all_def; rewrite inE w_in orbT.
Qed.

Lemma oseq_map_defined (T : eqType) (U : Type) (g : T -> option U) s :
  (forall v, v \in s -> exists u, g v = Some u) ->
  exists us, oseq [seq g v | v <- s] = Some us.
Proof.
elim: s => [|v s IH] /= all_def; first by exists [::].
have [u ->] : exists u, g v = Some u by apply: all_def; rewrite inE eqxx.
have [|us ->] := IH; last by exists (u :: us).
by move=> w w_in; apply: all_def; rewrite inE w_in orbT.
Qed.

Lemma oseq_map_in (T U : eqType) (g : T -> option U) s us u :
  oseq [seq g v | v <- s] = Some us -> u \in us ->
  exists2 v, v \in s & g v = Some u.
Proof.
elim: s us => [|v s IH] us /=; first by case=> <-.
case ev: (g v) => [w|] //=; case es: (oseq _) => [ws|] //= [<-].
rewrite inE => /orP [/eqP ->|mem]; first by exists v; rewrite ?inE ?eqxx.
by have [v' v'_in ev'] := IH _ es mem; exists v'; rewrite ?inE ?v'_in ?orbT.
Qed.

(** C5: the guard replaces a probability of exactly 0 by 1.0e-4 and one of
    exactly 1 by 1 - 1.0e-4 and leaves every other value alone; the logarithm
    of 0 is the error branch; when every per-observation likelihood lies in
    [0, 1], every argument of the logarithm is strictly positive, so that
    branch is not taken, and negloglike returns a number, minus the sum of
    the logarithms of the guarded probabilities. *)
Theorem clamp_keeps_log_defined Phi params th args :
  unpack params = Some th ->
  (forall a, a \in args -> exists2 p, prob Phi th a = Some p & 0 <= p <= 1) ->
  [/\ clamp 0 = 1 / 10000 /\ clamp 1 = 1 - 1 / 10000,
      forall p, p <> 0 -> p <> 1 -> clamp p = p,
      anp_log 0 = None
    & exists ps,
        [/\ oseq [seq prob Phi th a | a <- args] = Some ps,
            forall p, p \in ps ->
              0 < clamp p /\ anp_log (clamp p) = Some (ln (clamp p))
          & negloglike Phi params args
            = Some (- sumR [seq ln (clamp p) | p <- ps])]].
Proof.
move=> eth in01.
split; [by rewrite clamp_0 clamp_1 | exact: clamp_id | |].
  by apply: anp_log_undef; lra.
have [a a_in|ps eps] := @oseq_map_defined _ _ (prob Phi th) args.
  by have [p -> _] := in01 a a_in; exists p.
exists ps.
have pos p : p \in ps -> 0 < clamp p.
  move=> mem; have [a /in01 [q eq q01] ep] := oseq_map_in eps mem.
  by move: ep; rewrite eq => -[<-]; have [] := clamp_unit_interval q01.
split=> // [p mem|].
  by split; [exact: pos | rewrite anp_log_def //; exact: pos].
rewrite /negloglike eth /= eps /=.
rewrite (@oseq_map_some _ _ _ (fun p => ln (clamp p))) // => p mem.
by rewrite anp_log_def //; exact: pos.
Qed.

(** The guard at work: a row at the lower boundary whose probability is
    exactly 0 contributes the logarithm of 1.0e-4. *)
Example negloglike_guarded_row :
  negloglike Phi_one [:: 1; 1; 1; 2; 1; 0; 1] [:: row10]
  = Some (- (ln (1 / 10000) + 0)).
Proof.
have epc := @predchoice_unit 1 0 Rlt_0_1 (or_introl erefl).
have s0 : 0 < sigma (Theta 1 1 1 2 1 0 1) := Rlt_0_1.
rewrite /negloglike /= (prob_def _ s0 epc) /= /Phi_one.
have -> : (1 - 1 - 0) * gaussian 10 (if 0 == 0 then 1 else 1) 1
          + 1 * (1 - 1) + 0 * 1 = 0 by lra.
by rewrite clamp_0 anp_log_def //; exact: (proj1 tiny_bounds).
Qed.

(** C5 at the row of [negloglike_guarded_row]. *)
Lemma clamp_keeps_log_defined_witness :
  unpack [:: 1; 1; 1; 2; 1; 0; 1] = Some (Theta 1 1 1 2 1 0 1)
  /\ exists ps,
       negloglike Phi_one [:: 1; 1; 1; 2; 1; 0; 1] [:: row10]
       = Some (- sumR [seq ln (clamp p) | p <- ps]).
Proof.
split=> //.
have in01 a : a \in [:: row10] ->
    exists2 p, prob Phi_one (Theta 1 1 1 2 1 0 1) a = Some p & 0 <= p <= 1.
  rewrite inE => /eqP ->.
  have epc := @predchoice_unit 1 0 Rlt_0_1 (or_introl erefl).
  have s0 : 0 < sigma (Theta 1 1 1 2 1 0 1) := Rlt_0_1.
  rewrite (prob_def _ s0 epc) /= /Phi_one.
  by eexists; [reflexivity | lra].
have eth : unpack [:: 1; 1; 1; 2; 1; 0; 1] = Some (Theta 1 1 1 2 1 0 1).
  by [].
have [_ _ _ [ps [_ _ ell]]] := clamp_keeps_log_defined eth in01.
by exists ps.
Defined.

(** ** The number of parameters *)

Lemma size_seq_of_rV n (v : 'rV[R]_n) : size (seq_of_rV v) = n.
Proof. by rewrite /seq_of_rV size_map size_enum_ord. Qed.

Lemma size_minimize nm func x0 cap :
  size (x (minimize nm func x0 cap)) = size x0.
Proof. by rewrite /minimize /nm_minimize /= size_seq_of_rV. Qed.

Lemma K_eq7 Phi nm dt : K Phi nm dt = 7%N.
Proof. by rewrite /K /res /sol size_minimize. Qed.

Lemma unpackP params :
  (exists th, unpack params = Some th) <-> size params = 7%N.
Proof.
split=> [[th]|].
  by case: params => [|? [|? [|? [|? [|? [|? [|? [|? ?]]]]]]]].
case: params => [|b [|bh [|d [|g [|p [|a [|s [|? ?]]]]]]]] //= _.
by exists (Theta b bh d g p a s).
Qed.

Lemma packK th : unpack (pack th) = Some th.
Proof. by case: th. Qed.

(** C7: the parameter vector has exactly seven elements: the likelihood
    unpacks its argument into the seven components beta, betahat, delta,
    gamma, phi, alpha, sigma (in this order) and accepts no other length, the
    initial guess has seven entries, and so does the estimate whose length is
    the parameter count K. *)
Theorem seven_parameters Phi nm dt :
  [/\ forall params, (exists th, unpack params = Some th) <-> size params = 7%N,
      forall th,
        pack th = [:: beta th; betahat th; delta th; gamma th; phi th;
                      alpha th; sigma th]
        /\ unpack (pack th) = Some th,
      forall params args, size params <> 7%N ->
        negloglike Phi params args = None,
      size par_init = 7%N
    & K Phi nm dt = 7%N].
Proof.
split; [exact: unpackP | by move=> th; rewrite packK | | by [] |].
  move=> params args sz; rewrite /negloglike.
  by case e: (unpack params) => [th|] //; case: sz; apply/unpackP; exists th.
exact: K_eq7.
Qed.

(** ** The degrees-of-freedom and cluster adjustment *)

Lemma adjustment_def nobs k nindiv :
  (k < nobs)%N -> (1 < nindiv)%N ->
  adjustment nobs k nindiv
  = Some ((INR nobs - 1) / (INR nobs - INR k) * INR nindiv / (INR nindiv - 1)).
Proof.
move=> /ltP k_lt /ltP c_gt; rewrite /adjustment /py_truediv.
have /Z.eqb_neq -> : (Z.of_nat nobs - Z.of_nat k)%Z <> 0%Z.
  move/Zminus_eq/Nat2Z.inj => e; rewrite e in k_lt.
  exact: (Nat.lt_irrefl _ k_lt).
rewrite /= !minus_IZR -!INR_IZR_INZ np_div_def //.
by have := lt_INR _ _ c_gt; rewrite /=; lra.
Qed.

Lemma adjustment_gt1 nobs k nindiv :
  (k < nobs)%N -> (1 < k)%N -> (1 < nindiv)%N ->
  1 < (INR nobs - 1) / (INR nobs - INR k) * INR nindiv / (INR nindiv - 1).
Proof.
move=> /ltP /lt_INR k_lt /ltP /lt_INR k_gt /ltP /lt_INR c_gt.
move: k_lt k_gt c_gt => /=.
set N := INR nobs; set k' := INR k; set C := INR nindiv => k_lt k_gt c_gt.
have -> : (N - 1) / (N - k') * C / (C - 1)
          = ((N - 1) * C) / ((N - k') * (C - 1)) by field; lra.
set D := (N - k') * (C - 1); set X := (N - 1) * C.
have D0 : 0 < D by apply: Rmult_lt_0_compat; lra.
have XD : D < X by rewrite /D /X; nra.
have <- : D * / D = 1 by apply: Rinv_r; lra.
by apply: Rmult_lt_compat_r => //; exact: Rinv_0_lt_compat.
Qed.

(** The adjustment of the notebook's run: 8049 rows, 7 parameters and 72
    individuals. *)
Example adjustment_table1 :
  adjustment 8049 7 72 = Some (8048 / 8042 * 72 / 71).
Proof.
rewrite adjustment_def // !INR_IZR_INZ /=; congr Some.
by field.
Qed.

Lemma G_zero_grad Phi nm dt : G Phi nm zero_grad dt = Some 0%R.
Proof.
rewrite /G /gradients_indiv /gradients /gradfun /zero_grad /=.
rewrite (@oseq_map_some _ _ _ (fun r => (wid r, 0%R))) //=.
congr Some; apply: big1_seq => g /= /mapP [w _ ->] /=.
rewrite big_seq_cond big1 ?mulmx0 // => q /andP [/mapP [r _ ->]].
by [].
Qed.




(** ** The optimisation loop *)

Section DriverFacts.

Variables (n : nat) (M : simplex_method n) (f : 'rV[R]_n -> option R).

Lemma nm_loop_counter budget it s :
  (it <= (nm_loop M f budget it s).2 <= it + budget)%N.
Proof.
elim: budget it s => [|b IH] it s /=; first by rewrite addn0 leqnn.
case: ifP => _ /=; first by rewrite leqnn leq_addr.
by have /andP [lo hi] := IH it.+1 (sm_update f s); rewrite (ltnW lo) -addSnnS.
Qed.

Lemma nm_loop_run budget it s :
  nm_run M f (it + budget) ((nm_loop M f budget it s).2 - it) (s, it)
    (nm_loop M f budget it s).
Proof.
elim: budget it s => [|b IH] it s /=; first by rewrite subnn; constructor.
case: ifP => [_|conv] /=; first by rewrite subnn; constructor.
have /andP [lo _] := nm_loop_counter b it.+1 (sm_update f s).
have -> : ((nm_loop M f b it.+1 (sm_update f s)).2 - it
           = ((nm_loop M f b it.+1 (sm_update f s)).2 - it.+1).+1)%N.
  by rewrite subnS prednK // subn_gt0.
apply: (@NmRunS _ M f _ _ _ (sm_update f s, it.+1)).
  by constructor=> //; rewrite addnS ltnS leq_addr.
by rewrite -addSnnS; exact: IH.
Qed.

Lemma nm_loop_exit budget it s :
  nm_exit M f (it + budget) (nm_loop M f budget it s).
Proof.
elim: budget it s => [|b IH] it s /=.
  by rewrite /nm_exit /= addn0 leqnn.
case: ifP => [conv|_]; first by rewrite /nm_exit /= conv orbT.
by rewrite -addSnnS; exact: IH.
Qed.

Lemma nm_run_counter cap k st st' :
  nm_run M f cap k st st' ->
  st'.2 = (st.2 + k)%N /\ ((0 < k)%N -> (st.2 + k <= cap)%N).
Proof.
elim=> {k st st'} [st|k st1 st2 st3 step _ [-> bound]].
  by rewrite addn0.
case: step bound => s it it_lt _ /= bound; rewrite -addSnnS; split=> // _.
by case: k bound => [|k] bound; [rewrite addn0 | exact: bound].
Qed.

Lemma nm_exit_stuck cap st st' : nm_exit M f cap st -> ~ nm_step M f cap st st'.
Proof.
move=> ex step; case: step ex => s it it_lt conv.
by rewrite /nm_exit /= conv orbF leqNgt it_lt.
Qed.

End DriverFacts.

(** C6: the optimisation step is bounded by the iteration cap of 1500: for
    every simplex method, objective and starting point the driver performs at
    most 1500 iterations, every sequence of loop turns from the initial state
    has at most 1500 turns, and the loop reaches an exit state from which no
    further turn is possible; in particular the optimisation of the notebook
    reports at most 1500 iterations. *)
Theorem optimisation_bounded Phi nm dt :
  [/\ maxiter = 1500%N,
      forall n (M : simplex_method n) f x0,
        [/\ (nit (nm_minimize M f x0 maxiter) <= 1500)%N,
            forall k st,
              nm_run M f maxiter k (sm_init M f x0, 0%N) st -> (k <= 1500)%N
          & exists k st,
              [/\ nm_run M f maxiter k (sm_init M f x0, 0%N) st,
                  nit (nm_minimize M f x0 maxiter) = k,
                  x (nm_minimize M f x0 maxiter) = seq_of_rV (sm_best st.1)
                & forall st', ~ nm_step M f maxiter st st']]
    & (nit (sol Phi nm dt) <= 1500)%N].
Proof.
have bound n (M : simplex_method n) f x0 :
    (nit (nm_minimize M f x0 maxiter) <= 1500)%N.
  by have /andP [_] := @nm_loop_counter _ M f maxiter 0 (sm_init M f x0).
split=> [//| n M f x0 | ]; last by rewrite /sol /minimize; exact: bound.
split=> // [k st run|].
  have [_] := nm_run_counter run.
  by case: k {run} => [|k] // /(_ isT).
exists (nm_loop M f maxiter 0 (sm_init M f x0)).2,
       (nm_loop M f maxiter 0 (sm_init M f x0)).
split=> // [|st'].
  by have := @nm_loop_run _ M f maxiter 0 (sm_init M f x0); rewrite subn0.
by apply: nm_exit_stuck; exact: (@nm_loop_exit _ M f maxiter 0).
Qed.

(** ** The sandwich estimator *)

Lemma linalg_inv_opp n (A : 'M[R]_n) :
  linalg_inv (- A)%R = omap (@GRing.opp _) (linalg_inv A).
Proof.
rewrite /linalg_inv -scaleN1r unitmxZ ?unitrN1 //.
case: ifP => // unitA /=.
by rewrite invmxZ ?unitmxZ ?unitrN1 // invrN1 scaleN1r.
Qed.

Lemma sandwich_opp n (Hi Gm : 'M[R]_n) :
  ((- Hi) *m Gm *m (- Hi) = Hi *m Gm *m Hi)%R.
Proof. by rewrite (@mulmxN R) (@mulNmx R) (@mulNmx R) opprK. Qed.

Lemma outer_opp n (g : 'rV[R]_n) : ((- g)^T *m (- g) = g^T *m g)%R.
Proof. by rewrite (@mulmxN R) linearN /= (@mulNmx R) opprK. Qed.

Lemma oseq_omap (T U V : Type) (g : T -> option U) (h : U -> V) s :
  oseq [seq omap h (g v) | v <- s] = omap (map h) (oseq [seq g v | v <- s]).
Proof.
elim: s => [|v s IH] //=; rewrite IH.
by case: (g v) => [u|] //=; case: (oseq _).
Qed.

Lemma oseq_keys (T U : Type) (key : T -> nat) (g : T -> option U) s gs :
  oseq [seq omap (pair (key r)) (g r) | r <- s] = Some gs ->
  [seq q.1 | q <- gs] = [seq key r | r <- s].
Proof.
elim: s gs => [|r rs IH] gs /=; first by case=> <-.
case: (g r) => [u|] //=; case e: (oseq _) => [gs'|] //= [<-] /=.
by rewrite (IH _ e).
Qed.

Lemma zip_keys_opp (V : zmodType) (gs : seq (nat * V)) :
  zip [seq q.1 | q <- gs] [seq (- q)%R | q <- [seq q.2 | q <- gs]]
  = [seq (q.1, (- q.2)%R) | q <- gs].
Proof. by elim: gs => [|[w g] gs IH] //=; rewrite IH. Qed.

Lemma size_np_diag n (V : 'M[R]_n) : size (np_diag V) = n.
Proof. by rewrite /np_diag size_map size_enum_ord. Qed.

Lemma nth_np_diag n (V : 'M[R]_n) (i : 'I_n) : nth 0 (np_diag V) i = V i i.
Proof. by rewrite /np_diag (nth_map i) ?size_enum_ord // nth_ord_enum. Qed.

Section SandwichFacts.

Variable Phi : R -> R.
Variable nelder_mead : forall n, simplex_method n.
Variable grad :
  forall n, ('rV[R]_n -> option R) -> 'rV[R]_n -> option 'rV[R]_n.
Variable hessian :
  forall n, ('rV[R]_n -> option R) -> 'rV[R]_n -> option 'M[R]_n.

(** Differentiation commutes with the change of sign of the function. *)
Hypothesis grad_opp : forall n (f : 'rV[R]_n -> option R) v,
  grad (fun p => omap Ropp (f p)) v = omap (@GRing.opp _) (grad f v).
Hypothesis hessian_opp : forall n (f : 'rV[R]_n -> option R) v,
  hessian (fun p => omap Ropp (f p)) v = omap (@GRing.opp _) (hessian f v).

Variable dt : seq observation.

Local Notation K := (K Phi nelder_mead dt).
Local Notation res := (res Phi nelder_mead dt).
Local Notation Gmat := (G Phi nelder_mead grad dt).
Local Notation adj := (adj Phi nelder_mead dt).

Lemma hess_loglike_opp :
  hess_loglike Phi nelder_mead hessian dt
  = omap (@GRing.opp _) (hess Phi nelder_mead hessian dt).
Proof. by rewrite /hess_loglike /hess /Hfun /loglike hessian_opp. Qed.

Lemma score_opp r :
  score Phi nelder_mead grad dt r
  = omap (@GRing.opp _) (gradfun Phi grad res [:: columns r]).
Proof. by rewrite /score /gradfun /loglike grad_opp. Qed.

(** The notebook's standard errors, with the Hessian of the log-likelihood
    in place of the Hessian of [negloglike] that the notebook inverts: the
    two changes of sign cancel in the sandwich. *)
Lemma se_cluster_loglike H Gm a :
  hess_loglike Phi nelder_mead hessian dt = Some H -> H \in unitmx ->
  Gmat = Some Gm -> adj = Some a ->
  se_cluster Phi nelder_mead grad hessian dt
  = Some [seq np_sqrt v | v <- np_diag (a *: (invmx H *m Gm *m invmx H))%R].
Proof.
rewrite hess_loglike_opp /se_cluster /varcov_estimates /hess_inv.
case: (hess _ _ _ _) => [Hn|] //= [<-] unitH -> -> /=.
have eHn : linalg_inv Hn = Some (- invmx (- Hn))%R.
  by have := linalg_inv_opp (- Hn)%R; rewrite opprK [in RHS]/linalg_inv unitH.
by rewrite eHn /= sandwich_opp.
Qed.

(** C1: at every estimate at which the Hessian H of the log-likelihood is
    invertible (G and the adjustment Adj being defined), the notebook
    reports one standard error per parameter, and the i-th one is the square
    root of the i-th diagonal entry of Adj (H^-1 G H^-1): the non-negative
    number whose square is that entry; where the entry is negative the
    standard error is [nan]. *)
Theorem se_cluster_sandwich H Gm a :
  hess_loglike Phi nelder_mead hessian dt = Some H -> H \in unitmx ->
  Gmat = Some Gm -> adj = Some a ->
  let V := (a *: (invmx H *m Gm *m invmx H))%R in
  exists se,
    [/\ se_cluster Phi nelder_mead grad hessian dt = Some se,
        size se = K,
        forall i : 'I_K, 0 <= V i i ->
          exists s, [/\ nth None se i = Some s, s = sqrt (V i i), 0 <= s
                      & s * s = V i i]
      & forall i : 'I_K, V i i < 0 -> nth None se i = None].
Proof.
move=> eH unitH eG ea V; rewrite (se_cluster_loglike eH unitH eG ea) -/V.
have entry (i : 'I_K) :
    nth None [seq np_sqrt v | v <- np_diag V] i = np_sqrt (V i i).
  by rewrite (nth_map 0) ?size_np_diag // nth_np_diag.
eexists; split; first by reflexivity.
- by rewrite size_map size_np_diag.
- move=> i Vi0; rewrite entry /np_sqrt; case: RlebP => // _.
  exists (sqrt (V i i)); split=> //; first exact: sqrt_pos.
  exact: sqrt_sqrt.
- move=> i Vi0; rewrite entry /np_sqrt; case: RlebP => // le0.
  by have := Rlt_irrefl 0; lra.
Qed.

(** C2: G is computed in two stages: the scores of the observations (the
    gradients of their log-likelihood at the estimate) are summed within each
    cluster, a cluster being the rows with the same individual id, and G is
    the sum over the clusters of the outer product of the summed score with
    itself. *)
Theorem G_sums_cluster_outer_products :
  Gmat = (let? scores :=
            oseq [seq score Phi nelder_mead grad dt r | r <- dt] in
          let rows := zip [seq wid r | r <- dt] scores in
          Some (\sum_(w <- undup [seq wid r | r <- dt])
               (\sum_(q <- rows | q.1 == w) q.2)^T
               *m (\sum_(q <- rows | q.1 == w) q.2))%R).
Proof.
rewrite /G /gradients_indiv /gradients.
have -> : [seq score Phi nelder_mead grad dt r | r <- dt]
          = [seq omap (@GRing.opp _)
                   (omap snd (omap (pair (wid r))
                                (gradfun Phi grad res [:: columns r])))
            | r <- dt].
  by apply: eq_map => r; rewrite score_opp; case: (gradfun _ _ _ _).
rewrite 2!oseq_omap.
case egs: (oseq _) => [gs|] //=; congr Some.
have wids : [seq q.1 | q <- gs] = [seq wid r | r <- dt] := oseq_keys egs.
rewrite /groupby_sum big_map wids (perm_big _ (permEl (perm_sort _ _))) /=.
apply: eq_bigr => w _.
by rewrite -wids zip_keys_opp big_map /= sumrN outer_opp.
Qed.

End SandwichFacts.

(** ** Differentiation by finite differences *)

Lemma odflt_opp (o : option R) : odflt 0 (omap Ropp o) = - odflt 0 o.
Proof. by case: o => [y|] //=; rewrite Ropp_0. Qed.

Lemma orow_opp n (e e' : 'I_n -> option R) :
  (forall i, e' i = omap Ropp (e i)) ->
  orow e' = omap (@GRing.opp _) (orow e).
Proof.
move=> ee'; rewrite /orow.
have -> : [forall i, e' i] = [forall i, e i].
  by apply: eq_forallb => i; rewrite ee'; case: (e i).
case: ifP => // _ /=; congr Some; apply/rowP => i.
by rewrite !mxE ee' odflt_opp.
Qed.

Lemma omatrix_opp n (e e' : 'I_n -> 'I_n -> option R) :
  (forall i j, e' i j = omap Ropp (e i j)) ->
  omatrix e' = omap (@GRing.opp _) (omatrix e).
Proof.
move=> ee'; rewrite /omatrix.
have -> : [forall i, forall j, e' i j] = [forall i, forall j, e i j].
  apply: eq_forallb => i; apply: eq_forallb => j.
  by rewrite ee'; case: (e i j).
case: ifP => // _ /=; congr Some; apply/matrixP => i j.
by rewrite !mxE ee' odflt_opp.
Qed.

Lemma fd_grad_opp n (f : 'rV[R]_n -> option R) v :
  fd_grad (fun p => omap Ropp (f p)) v = omap (@GRing.opp _) (fd_grad f v).
Proof.
apply: orow_opp => i.
case: (f (v + delta_mx ord0 i)%R) => [a|]; case: (f v) => [b|] //=.
by congr Some; lra.
Qed.

Lemma fd_hessian_opp n (f : 'rV[R]_n -> option R) v :
  fd_hessian (fun p => omap Ropp (f p)) v
  = omap (@GRing.opp _) (fd_hessian f v).
Proof.
apply: omatrix_opp => i j.
case: (f (v + delta_mx ord0 i + delta_mx ord0 j)%R) => [a|];
  case: (f (v + delta_mx ord0 i)%R) => [b|];
  case: (f (v + delta_mx ord0 j)%R) => [c|];
  case: (f v) => [d|] //=.
by congr Some; lra.
Qed.

(** C2 with differentiation by finite differences, on [dataset8]. *)
Lemma G_sums_cluster_outer_products_witness :
  (forall n (f : 'rV[R]_n -> option R) v,
     fd_grad (fun p => omap Ropp (f p)) v = omap (@GRing.opp _) (fd_grad f v))
  /\ G Phi_one stationary_method fd_grad dataset8
     = (let? scores :=
          oseq [seq score Phi_one stationary_method fd_grad dataset8 r
               | r <- dataset8] in
        let rows := zip [seq wid r | r <- dataset8] scores in
        Some (\sum_(w <- undup [seq wid r | r <- dataset8])
                (\sum_(q <- rows | q.1 == w) q.2)^T
                *m (\sum_(q <- rows | q.1 == w) q.2))%R).
Proof.
split; first exact: fd_grad_opp.
exact: (@G_sums_cluster_outer_products Phi_one stationary_method fd_grad
          fd_grad_opp dataset8).
Defined.

(** * Further properties of the notebook *)

(** ** The likelihood as a sum over the rows *)

Lemma oseq_cat (T : Type) (s1 s2 : seq (option T)) :
  oseq (s1 ++ s2)
  = (let? t1 := oseq s1 in let? t2 := oseq s2 in Some (t1 ++ t2)).
Proof.
elim: s1 => [|[v|] s1 IH] //=; first by case: (oseq s2).
by rewrite IH; case: (oseq s1) => [t1|] //=; case: (oseq s2).
Qed.

Lemma oseq_bind (T U V : Type) (g : T -> option U) (h : U -> option V) s :
  (let? us := oseq [seq g v | v <- s] in oseq [seq h u | u <- us])
  = oseq [seq (let? u := g v in h u) | v <- s].
Proof.
elim: s => [|v s IH] //=; rewrite -IH.
case: (g v) => [u|] //=; case: (oseq [seq g w | w <- s]) => [us|] //=.
by case: (h u).
Qed.

Lemma sumR_cat s1 s2 : sumR (s1 ++ s2) = sumR s1 + sumR s2.
Proof. by elim: s1 => [|v s1 IH] /=; [lra | rewrite IH; lra]. Qed.

Lemma sumRE s : sumR s = (\sum_(v <- s) v)%R.
Proof. by elim: s => [|v s IH]; rewrite ?big_nil // big_cons -IH. Qed.

Lemma negloglike_rows Phi params th args :
  unpack params = Some th ->
  negloglike Phi params args
  = (let? ls := oseq [seq row_loglike Phi th a | a <- args] in
     Some (- sumR ls)).
Proof.
move=> eth; rewrite /negloglike eth /= -oseq_bind.
by case: (oseq _) => [ps|].
Qed.

(** X1: the negative log-likelihood is additive over the rows: on the
    concatenation of two tables it is the sum of the values on the two
    tables (undefined as soon as one of them is), and with seven parameters
    it is the sum of its values on the one-row tables. *)
Theorem negloglike_additive Phi params args1 args2 :
  negloglike Phi params (args1 ++ args2)
  = (let? v1 := negloglike Phi params args1 in
     let? v2 := negloglike Phi params args2 in
     Some (v1 + v2))
  /\ (size params = 7%N ->
      negloglike Phi params args1
      = (let? vs := oseq [seq negloglike Phi params [:: a] | a <- args1] in
         Some (sumR vs))).
Proof.
case eth: (unpack params) => [th|]; last first.
  split; first by rewrite /negloglike eth.
  by move/unpackP => [th]; rewrite eth.
split=> [|_].
  rewrite !(negloglike_rows _ _ eth) map_cat oseq_cat.
  case: (oseq _) => [l1|] //=; case: (oseq _) => [l2|] //=.
  by rewrite sumR_cat; congr Some; lra.
rewrite (negloglike_rows _ _ eth).
elim: args1 => [|a args IH] /=; first by congr Some; lra.
rewrite (negloglike_rows _ [:: a] eth) /=.
case: (row_loglike Phi th a) => [l|] //=.
move: IH; case: (oseq [seq row_loglike _ _ _ | _ <- _]) => [ls|] /=.
  case: (oseq _) => [vs|] //= [e]; congr Some; lra.
by case: (oseq _).
Qed.

(** X1 at the starting parameters, on two one-row tables. *)
Lemma negloglike_additive_witness :
  size par_init = 7%N
  /\ negloglike Phi_one par_init [:: row10]
     = (let? vs := oseq [seq negloglike Phi_one par_init [:: a]
                        | a <- [:: row10]] in
        Some (sumR vs)).
Proof.
split=> //.
have [_ rows] := negloglike_additive Phi_one par_init [:: row10] [:: row10].
exact: rows.
Defined.

Lemma oseq_pmap (T U : Type) (g : T -> option U) s :
  oseq [seq g v | v <- s]
  = if all (fun v => g v) s then Some (pmap g s) else None.
Proof.
elim: s => [|v s IH] //=; rewrite IH.
by case: (g v) => [u|] //=; case: ifP.
Qed.

Lemma sumR_pmap (T : Type) (g : T -> option R) s :
  sumR (pmap g s) = (\sum_(v <- s) odflt 0 (g v))%R.
Proof.
elim: s => [|v s IH] /=; first by rewrite big_nil.
rewrite big_cons -IH; case: (g v) => [u|] //=.
by rewrite -[LHS]Rplus_0_l.
Qed.

(** X2: the negative log-likelihood does not depend on the order of the
    rows. *)
Theorem negloglike_perm Phi params (args1 args2 : seq args_row) :
  perm_eq args1 args2 ->
  negloglike Phi params args1 = negloglike Phi params args2.
Proof.
move=> p12; case eth: (unpack params) => [th|]; last first.
  by rewrite /negloglike eth.
rewrite !(negloglike_rows _ _ eth) !oseq_pmap (perm_all _ p12).
case: ifP => //= _; congr Some; congr (- _).
by rewrite !sumR_pmap; apply: perm_big.
Qed.

(** X2 on a table of two rows and the same table in the other order. *)
Lemma negloglike_perm_witness :
  negloglike Phi_one par_init [:: row10; columns (prepare decision0)]
  = negloglike Phi_one par_init [:: columns (prepare decision0); row10].
Proof.
apply: negloglike_perm.
have -> : [:: columns (prepare decision0); row10]
          = rcons [:: columns (prepare decision0)] row10 by [].
by rewrite perm_sym perm_rcons.
Defined.

(** ** The guard, for every probability *)

Lemma clamp_cases p :
  [/\ clamp p <> 0, clamp p <> 1, clamp (clamp p) = clamp p
    & 0 <= p -> 0 < clamp p].
Proof.
have tb := tiny_bounds.
have ne0 : clamp p <> 0.
  case: (eqVneq p 0) => [->|/eqP p0]; first by rewrite clamp_0; lra.
  case: (eqVneq p 1) => [->|/eqP p1]; first by rewrite clamp_1; lra.
  by rewrite clamp_id.
have ne1 : clamp p <> 1.
  case: (eqVneq p 0) => [->|/eqP p0]; first by rewrite clamp_0; lra.
  case: (eqVneq p 1) => [->|/eqP p1]; first by rewrite clamp_1; lra.
  by rewrite clamp_id.
split=> //; first exact: clamp_id.
case: (eqVneq p 0) => [->|/eqP p0]; first by rewrite clamp_0; lra.
case: (eqVneq p 1) => [->|/eqP p1]; first by rewrite clamp_1; lra.
by rewrite clamp_id //; lra.
Qed.

(** X3: whatever the probability, the guarded value is neither 0 nor 1, the
    guard applied twice is the guard applied once, and a non-negative
    probability becomes positive, so that its logarithm is defined. *)
Theorem clamp_avoids_0_1 p :
  [/\ clamp p <> 0, clamp p <> 1, clamp (clamp p) = clamp p
    & 0 <= p -> 0 < clamp p /\ anp_log (clamp p) = Some (ln (clamp p))].
Proof.
have [ne0 ne1 idem pos] := clamp_cases p; split=> // /pos cp0.
by rewrite anp_log_def.
Qed.

(** X4: the guard does not preserve the order of the probabilities: every
    probability strictly between 0 and 1.0e-4 is left below the value that
    replaces 0, and every one strictly between 1 - 1.0e-4 and 1 is left
    above the value that replaces 1. *)
Theorem clamp_not_monotone p :
  (0 < p < 1 / 10000 -> clamp p < clamp 0)
  /\ (1 - 1 / 10000 < p < 1 -> clamp 1 < clamp p).
Proof.
rewrite clamp_0 clamp_1 /tiny.
by split=> bounds; rewrite clamp_id; lra.
Qed.

(** X4 at the probabilities 1/20000 and 1 - 1/20000. *)
Lemma clamp_not_monotone_witness :
  (0 < 1 / 20000 < 1 / 10000 /\ clamp (1 / 20000) < clamp 0)
  /\ (1 - 1 / 10000 < 1 - 1 / 20000 < 1 /\ clamp 1 < clamp (1 - 1 / 20000)).
Proof.
have lo : 0 < 1 / 20000 < 1 / 10000 by lra.
have hi : 1 - 1 / 10000 < 1 - 1 / 20000 < 1 by lra.
split; split=> //.
  by have [low _] := clamp_not_monotone (1 / 20000); exact: low.
by have [_ high] := clamp_not_monotone (1 - 1 / 20000); exact: high.
Defined.

(** ** The predicted effort *)

Lemma np_power_pos (v e : R) : 0 < v -> np_power v e = Some (Rpower v e).
Proof.
move=> v0; rewrite /np_power; case: (eqVneq e 0) => [->|_].
  by rewrite Rpower_O.
by rewrite Rltb_true.
Qed.

Lemma Rpower_gt0 (v e : R) : 0 < Rpower v e.
Proof. exact: exp_pos. Qed.

(** The base of the power in the predicted effort. *)
Lemma predchoice_pos th a :
  0 < phi th -> 0 < delta th -> 0 < beta th -> 0 < betahat th ->
  0 < a_wage a -> gamma th <> 1 ->
  let base := phi th * Rpower (delta th) (a_netdistance a)
              * Rpower (beta th) (a_today a)
              * Rpower (betahat th) (a_prediction a) * a_wage a in
  0 < base
  /\ predchoice th a
     = Some (Rpower base (1 / (gamma th - 1)) - a_pb a * alpha th).
Proof.
move=> ph0 d0 b0 bh0 w0 g1 base.
have base0 : 0 < base.
  rewrite /base; repeat (apply: Rmult_lt_0_compat => //);
    exact: Rpower_gt0.
split=> //; rewrite /predchoice !np_power_pos //= np_div_def /=; first lra.
by rewrite np_power_pos.
Qed.

(** X5: with positive phi, delta, beta, betahat and a cost curvature gamma
    above 1, the predicted effort is defined at every positive wage and is
    strictly increasing in the wage. *)
Theorem predchoice_increasing_in_wage th a w1 w2 :
  0 < phi th -> 0 < delta th -> 0 < beta th -> 0 < betahat th ->
  1 < gamma th -> 0 < w1 < w2 ->
  let row w := ArgsRow (a_netdistance a) w (a_today a) (a_prediction a)
                 (a_pb a) (a_effort a) (a_ind_effort10 a)
                 (a_ind_effort110 a) in
  exists e1 e2,
    [/\ predchoice th (row w1) = Some e1, predchoice th (row w2) = Some e2
      & e1 < e2].
Proof.
move=> ph0 d0 b0 bh0 g1 [w10 w12] row.
have g_ne : gamma th <> 1 by lra.
have w20 : 0 < w2 by lra.
have [base1 ->] := @predchoice_pos th (row w1) ph0 d0 b0 bh0 w10 g_ne.
have [base2 ->] := @predchoice_pos th (row w2) ph0 d0 b0 bh0 w20 g_ne.
do 2!eexists; split; [reflexivity | reflexivity |] => /=.
apply: Rplus_lt_compat_r; apply: Rlt_Rpower_l.
  by apply: Rdiv_lt_0_compat; lra.
split=> //; apply: Rmult_lt_compat_l => //.
repeat (apply: Rmult_lt_0_compat => //); exact: Rpower_gt0.
Qed.

(** X5 at the starting parameters, for the wages 1 and 2. *)
Lemma predchoice_increasing_in_wage_witness :
  exists e1 e2,
    [/\ predchoice (Theta (8 / 10) 1 1 2 500 7 40) (ArgsRow 0 1 0 0 0 10 1 0)
        = Some e1,
        predchoice (Theta (8 / 10) 1 1 2 500 7 40) (ArgsRow 0 2 0 0 0 10 1 0)
        = Some e2
      & e1 < e2].
Proof.
have w12 : 0 < 1 < 2 by lra.
apply: (@predchoice_increasing_in_wage (Theta (8 / 10) 1 1 2 500 7 40)
          row10 1 2) => //=; lra.
Defined.

(** X6: each parameter acts only on the rows it is attached to: betahat
    only where the decision is a prediction, delta only where the net
    distance is not 0, alpha only where the projection-bias dummy is not
    0. *)
Theorem predchoice_inert_parameters th a v :
  [/\ a_prediction a = 0 ->
      predchoice (Theta (beta th) v (delta th) (gamma th) (phi th)
                    (alpha th) (sigma th)) a = predchoice th a,
      a_netdistance a = 0 ->
      predchoice (Theta (beta th) (betahat th) v (gamma th) (phi th)
                    (alpha th) (sigma th)) a = predchoice th a
    & a_pb a = 0 ->
      predchoice (Theta (beta th) (betahat th) (delta th) (gamma th)
                    (phi th) v (sigma th)) a = predchoice th a].
Proof.
split=> e0; rewrite /predchoice /= e0 ?np_power_0 //.
case: (np_power _ _) => [dn|] //=; case: (np_power _ _) => [bt|] //=.
case: (np_power _ _) => [bp|] //=; case: (np_div _ _) => [e|] //=.
by case: (np_power _ _) => [u|] //=; congr Some; lra.
Qed.

(** X6 at a row that is no prediction, with betahat 1 against 3. *)
Lemma predchoice_inert_parameters_witness :
  predchoice (Theta 1 3 1 2 1 0 1) row10
  = predchoice (Theta 1 1 1 2 1 0 1) row10.
Proof.
have [no_pred _ _] := predchoice_inert_parameters (Theta 1 1 1 2 1 0 1) row10 3.
exact: no_pred.
Defined.

(** ** The cleaned table *)

Lemma clean_mem decisions ind_keep r :
  r \in clean decisions ind_keep <->
  (exists2 d, d \in decisions
    & [/\ r = prepare d, d_wid d \in ind_keep & d_bonusoffered d <> 1]).
Proof.
rewrite /clean /=; split=> [/mapP [d]|[d d_in [-> keep /eqP nobonus]]].
  rewrite !mem_filter => /and3P [/eqP nobonus keep d_in] ->.
  by exists d.
by apply: map_f; rewrite !mem_filter nobonus keep.
Qed.

(** X7: a row is in the cleaned table exactly when it is the prepared form
    of a decision of the raw table whose subject is kept and for which no
    bonus was offered; cleaning keeps the order, works table by table on a
    concatenation, and never adds rows. *)
Theorem cleanP decisions decisions' ind_keep r :
  [/\ r \in clean decisions ind_keep <->
      (exists2 d, d \in decisions
        & [/\ r = prepare d, d_wid d \in ind_keep & d_bonusoffered d <> 1]),
      clean (decisions ++ decisions') ind_keep
      = clean decisions ind_keep ++ clean decisions' ind_keep,
      subseq [seq wid x | x <- clean decisions ind_keep]
             [seq d_wid d | d <- decisions]
    & (size (clean decisions ind_keep) <= size decisions)%N].
Proof.
split; first exact: clean_mem.
- by rewrite /clean /= !filter_cat map_cat.
- rewrite /clean /= -map_comp (@eq_map _ _ (wid \o prepare) d_wid) //.
  apply: map_subseq; apply: subseq_trans (filter_subseq _ _).
  exact: filter_subseq.
- rewrite /clean /= size_map.
  apply: leq_trans (size_subseq (filter_subseq _ _)) _.
  exact: size_subseq (filter_subseq _ _).
Qed.

(** X8: the number of clusters is at most the number of rows and, on a
    cleaned table, at most the number of distinct kept subjects; a table
    has no cluster only if it has no row. *)
Theorem Nindiv_bounds decisions ind_keep dt :
  [/\ (Nindiv dt <= Nobs dt)%N,
      (Nindiv dt == 0%N) = (Nobs dt == 0%N)
    & (Nindiv (clean decisions ind_keep) <= size (undup ind_keep))%N].
Proof.
split.
- by rewrite /Nindiv /Nobs -(size_map wid dt); exact: size_undup.
- rewrite /Nindiv /Nobs !size_eq0; case: dt => [|r rs] //=.
  case: ifP => // w_in; apply/eqP => /undup_nil e.
  by rewrite e in w_in.
- rewrite /Nindiv; apply: uniq_leq_size (undup_uniq _) _ => w.
  rewrite !mem_undup => /mapP [r /clean_mem [d _ [-> keep _]] ->].
  exact: keep.
Qed.

(** ** Where the likelihood is defined *)

Lemma gaussian_bounds v loc scale :
  0 < scale ->
  0 < gaussian v loc scale /\ (1 / 2 <= scale -> gaussian v loc scale <= 1).
Proof.
move=> s0; rewrite /gaussian.
have two_pi : 4 <= 2 * PI by have := PI2_1; lra.
have root : 2 <= sqrt (2 * PI).
  have e4 : sqrt (2 * 2) = 2 by apply: sqrt_square; lra.
  have le4 : 2 * 2 <= 2 * PI by lra.
  by have := sqrt_le_1_alt _ _ le4; rewrite e4.
set D := scale * sqrt (2 * PI).
have D0 : 0 < D by apply: Rmult_lt_0_compat; lra.
set E := exp _.
have E0 : 0 < E by exact: exp_pos.
have E1 : E <= 1.
  rewrite /E -exp_0; set u := (_ / 2).
  have u0 : u <= 0.
    rewrite /u; have := pow2_ge_0 ((v - loc) / scale); lra.
  by case: u0 => [/exp_increasing /Rlt_le|->] //; apply: Rle_refl.
split=> [|half]; first exact: Rdiv_lt_0_compat.
have D1 : 1 <= D.
  have := @Rmult_le_compat (1 / 2) scale 2 (sqrt (2 * PI)).
  by rewrite /D; lra.
have -> : E / D = E * / D by [].
have iD : 0 < / D <= 1.
  split; first exact: Rinv_0_lt_compat.
  by rewrite -Rinv_1; apply: Rinv_le_contravar; lra.
by nra.
Qed.

Section Domain.

Variable Phi : R -> R.

(** A cumulative distribution function takes its values in [0, 1]. *)
Hypothesis Phi01 : forall v, 0 <= Phi v <= 1.

Lemma prob_bounds decisions ind_keep th r pc :
  r \in clean decisions ind_keep ->
  0 < sigma th -> predchoice th (columns r) = Some pc ->
  exists p, [/\ prob Phi th (columns r) = Some p, 0 <= p
              & 1 / 2 <= sigma th -> p <= 1].
Proof.
case/clean_prepare => d [-> _ _] s0 epc; rewrite (prob_def _ s0 epc).
have := dummies_of_prepare d; rewrite /branch_weights /=.
set i10 := astype_int _; set i110 := astype_int _.
set z := (_ / _); have [Pz0 Pz1] := Phi01 z.
have [g0 g1] := gaussian_bounds (d_effort d) pc s0.
by case=> [[_ [-> -> ->]]|[_ [-> -> ->]]|[_ _ [-> -> ->]]];
  eexists; split; try reflexivity; try lra; move=> /g1; lra.
Qed.

Lemma row_loglike_bounds decisions ind_keep th r pc :
  r \in clean decisions ind_keep ->
  0 < sigma th -> predchoice th (columns r) = Some pc ->
  exists l, row_loglike Phi th (columns r) = Some l
            /\ (1 / 2 <= sigma th -> l < 0).
Proof.
move=> r_in s0 epc; have [p [ep p0 p1]] := prob_bounds r_in s0 epc.
have [_ _ _ /(_ p0) cp0] := clamp_cases p.
exists (ln (clamp p)); rewrite /row_loglike ep /= anp_log_def //.
split=> // /p1 p_le1; rewrite -ln_1; apply: ln_increasing => //.
by have [] := @clamp_unit_interval p (conj p0 p_le1).
Qed.

(** X9: on a cleaned table with positive wages the negative log-likelihood
    is defined at every parameter vector with positive beta, betahat, delta,
    phi and sigma and with gamma different from 1; if moreover sigma is at
    least 1/2 it is non-negative. *)
Theorem negloglike_defined_on_domain decisions ind_keep th :
  (forall r, r \in clean decisions ind_keep -> 0 < wage r) ->
  0 < phi th -> 0 < delta th -> 0 < beta th -> 0 < betahat th ->
  gamma th <> 1 -> 0 < sigma th ->
  exists v,
    negloglike Phi (pack th) (mle_args (clean decisions ind_keep)) = Some v
    /\ (1 / 2 <= sigma th -> 0 <= v).
Proof.
move=> wages ph0 d0 b0 bh0 g1 s0.
rewrite (negloglike_rows _ _ (packK th)) /mle_args -map_comp.
set dt := clean decisions ind_keep.
have rows r : r \in dt ->
    exists l, row_loglike Phi th (columns r) = Some l
              /\ (1 / 2 <= sigma th -> l < 0).
  move=> r_in.
  have w0 := wages r r_in.
  have [_ epc] := @predchoice_pos th (columns r) ph0 d0 b0 bh0 w0 g1.
  exact: row_loglike_bounds r_in s0 epc.
have : forall r, r \in dt -> r \in dt by [].
elim: {-2}dt => [|r rs IH] sub /=.
  by exists (- 0); split=> // _; lra.
have [l [-> l_neg]] := rows r (sub r (mem_head _ _)).
have [w w_in|v [+ v_pos]] := IH; first by apply: sub; rewrite inE w_in orbT.
case: (oseq _) => [ls|] //= [ev].
exists (- (l + sumR ls)); split=> // half.
by have := l_neg half; have := v_pos half; rewrite -ev; lra.
Qed.

End Domain.

(** X9 on a table of one row at the lower boundary, at the starting
    parameters. *)
Lemma negloglike_defined_on_domain_witness :
  exists v,
    negloglike Phi_one (pack (Theta (8 / 10) 1 1 2 500 7 40))
      (mle_args (clean [:: decision10] [:: 1%N])) = Some v
    /\ (1 / 2 <= 40 -> 0 <= v).
Proof.
have Phi01 v : 0 <= Phi_one v <= 1 by rewrite /Phi_one; lra.
have wages r : r \in clean [:: decision10] [:: 1%N] -> 0 < wage r.
  case/clean_mem => d + [-> _ _].
  by rewrite inE => /eqP -> /=; lra.
apply: (@negloglike_defined_on_domain Phi_one Phi01 [:: decision10] [:: 1%N]
          (Theta (8 / 10) 1 1 2 500 7 40)) => //=; lra.
Defined.

(** ** Grouping by individual *)

Lemma big_key1 (V : zmodType) (ks : seq nat) (k : nat) (v : V) :
  uniq ks -> (\sum_(w <- ks | k == w) v = if k \in ks then v else 0)%R.
Proof.
elim: ks => [|w ks IH] /=; first by rewrite big_nil.
move=> /andP [w_out uq]; rewrite big_cons inE IH //.
case: (eqVneq k w) => [->|_] //=.
by rewrite (negbTE w_out) addr0.
Qed.

Lemma big_partition_keys (V : zmodType) (rows : seq (nat * V)) :
  (\sum_(w <- undup [seq r.1 | r <- rows]) \sum_(r <- rows | r.1 == w) r.2
   = \sum_(r <- rows) r.2)%R.
Proof.
rewrite (exchange_big_dep predT) //=.
rewrite [LHS]big_seq_cond [RHS]big_seq_cond.
apply: eq_bigr => r /andP [r_in _].
rewrite big_key1 ?undup_uniq // mem_undup.
by rewrite (map_f (fun r => r.1) r_in).
Qed.

(** X10: grouping by individual returns one row per individual, in strictly
    increasing order of the identifiers, the identifiers being exactly those
    of the rows; as many rows as there are distinct identifiers; and the
    group sums add up to the sum of all the rows. *)
Theorem groupby_sum_partition n (rows : seq (nat * 'rV[R]_n)) :
  [/\ sorted ltn [seq g.1 | g <- groupby_sum rows],
      [seq g.1 | g <- groupby_sum rows] =i [seq r.1 | r <- rows],
      size (groupby_sum rows) = size (undup [seq r.1 | r <- rows])
    & (\sum_(g <- groupby_sum rows) g.2 = \sum_(r <- rows) r.2)%R].
Proof.
have keys : [seq g.1 | g <- groupby_sum rows]
            = sort leq (undup [seq r.1 | r <- rows]).
  by rewrite /groupby_sum -map_comp map_id_in.
split.
- rewrite keys ltn_sorted_uniq_leq sort_uniq undup_uniq /=.
  exact: (sort_sorted leq_total).
- by move=> w; rewrite keys mem_sort mem_undup.
- by rewrite /groupby_sum size_map size_sort.
- rewrite /groupby_sum big_map (perm_big _ (permEl (perm_sort _ _))) /=.
  exact: big_partition_keys.
Qed.

(** ** The matrix of outer products *)

Lemma sumR_ge0 (I : Type) (r : seq I) (F : I -> R) :
  (forall i, 0 <= F i) -> 0 <= (\sum_(i <- r) F i)%R.
Proof.
move=> F0; elim: r => [|i r IH]; first by rewrite big_nil; apply: Rle_refl.
by rewrite big_cons; apply: Rplus_le_le_0_compat.
Qed.

Lemma outer_sum_sym n (I : Type) (r : seq I) (g : I -> 'rV[R]_n) :
  ((\sum_(i <- r) (g i)^T *m g i)^T = \sum_(i <- r) (g i)^T *m g i)%R.
Proof.
rewrite raddf_sum /=; apply: eq_bigr => i _.
by rewrite trmx_mul trmxK.
Qed.

Lemma outer_sum_psd n (I : Type) (r : seq I) (g : I -> 'rV[R]_n)
    (v : 'rV[R]_n) :
  0 <= (v *m (\sum_(i <- r) (g i)^T *m g i) *m v^T)%R ord0 ord0.
Proof.
rewrite mulmx_sumr mulmx_suml summxE; apply: sumR_ge0 => i.
rewrite mulmxA -mulmxA.
have -> : (g i *m v^T = (v *m (g i)^T)^T)%R by rewrite trmx_mul trmxK.
rewrite mxE big_ord1 [((_)^T)%R ord0 ord0]mxE.
set c := (v *m (g i)^T)%R ord0 ord0.
have : 0 <= c * c by nra.
by [].
Qed.

Lemma G_psd_of Phi nm grad dt Gm :
  G Phi nm grad dt = Some Gm ->
  [/\ (Gm^T = Gm)%R,
      forall v : 'rV[R]_(K Phi nm dt), 0 <= (v *m Gm *m v^T)%R ord0 ord0
    & forall i, 0 <= Gm i i].
Proof.
rewrite /G; case: (gradients_indiv _ _ _ _) => [gi|] //= [<-].
have psd (v : 'rV[R]_(K Phi nm dt)) :
    0 <= (v *m (\sum_(g <- gi) g.2^T *m g.2) *m v^T)%R ord0 ord0.
  exact: outer_sum_psd.
split=> // [|i]; first exact: outer_sum_sym.
move: psd; set Gs := (\sum_(g <- gi) _)%R => psd.
have := psd (delta_mx ord0 i); rewrite -rowE trmx_delta.
rewrite mxE (bigD1 i) //= big1 => [k ne|].
  by rewrite !mxE (negbTE ne) /= mulr0.
by rewrite !mxE !eqxx /= mulr1 addr0.
Qed.

(** X11: when it is defined, the matrix G of summed outer products is
    symmetric and positive semi-definite; in particular its diagonal
    entries are non-negative. *)
Theorem G_symmetric_psd Phi nm grad dt Gm :
  G Phi nm grad dt = Some Gm ->
  [/\ (Gm^T = Gm)%R,
      forall v : 'rV[R]_(K Phi nm dt), 0 <= (v *m Gm *m v^T)%R ord0 ord0
    & forall i, 0 <= Gm i i].
Proof. exact: G_psd_of. Qed.

(** X11 on eight rows of two subjects, with a zero gradient. *)
Lemma G_symmetric_psd_witness :
  exists Gm,
    G Phi_one stationary_method zero_grad dataset8 = Some Gm
    /\ (Gm^T = Gm)%R.
Proof.
have [Gm eG] : exists Gm,
    G Phi_one stationary_method zero_grad dataset8 = Some Gm.
  by eexists; rewrite /G /gradients_indiv /gradients /=; reflexivity.
by exists Gm; split=> //; have [] := G_symmetric_psd eG.
Defined.

(** ** When the standard errors are numbers *)

Lemma diag_entry n (A : 'M[R]_n) i :
  let e : 'rV[R]_n := delta_mx ord0 i in
  (e *m A *m e^T)%R ord0 ord0 = A i i.
Proof.
rewrite /= -rowE trmx_delta mxE (bigD1 i) //= big1 => [k ne|].
  by rewrite !mxE (negbTE ne) /= mulr0.
by rewrite !mxE !eqxx /= mulr1 addr0.
Qed.

Lemma sandwich_diag_ge0 n (Hi Gm : 'M[R]_n) i :
  (Hi^T = Hi)%R ->
  (forall v : 'rV[R]_n, 0 <= (v *m Gm *m v^T)%R ord0 ord0) ->
  0 <= (Hi *m Gm *m Hi)%R i i.
Proof.
move=> symH psd; rewrite -diag_entry /=.
have := psd (delta_mx ord0 i *m Hi)%R.
by rewrite trmx_mul symH !mulmxA.
Qed.

Lemma se_cluster_some Phi nm grad hessian dt H Gm :
  hess Phi nm hessian dt = Some H -> H \in unitmx -> (H^T = H)%R ->
  G Phi nm grad dt = Some Gm ->
  (7 < Nobs dt)%N -> (1 < Nindiv dt)%N ->
  exists se,
    [/\ se_cluster Phi nm grad hessian dt = Some se, size se = 7%N
      & forall o, o \in se -> exists2 s, o = Some s & 0 <= s].
Proof.
move=> eH unitH symH eG nobs nind.
have eK := K_eq7 Phi nm dt.
have k_lt : (K Phi nm dt < Nobs dt)%N by rewrite eK.
have k_gt : (1 < K Phi nm dt)%N by rewrite eK.
have a_gt := adjustment_gt1 k_lt k_gt nind.
rewrite /se_cluster /varcov_estimates /hess_inv eH /= /linalg_inv unitH /=.
rewrite eG /= /adj adjustment_def //=.
eexists; split; first by reflexivity.
  by rewrite size_map size_np_diag.
move=> o /mapP [v /mapP [i _ ->] ->].
have symI : ((invmx H)^T = invmx H)%R by rewrite trmx_inv symH.
have [_ psd _] := G_psd_of eG.
have d0 := sandwich_diag_ge0 i symI psd.
rewrite mxE; set a := (_ / _) in a_gt *; set d := (_ *m _)%R i i in d0 *.
have ad0 : 0 <= a * d by apply: Rmult_le_pos => //; lra.
exists (sqrt (a * d)); last exact: sqrt_pos.
by rewrite /np_sqrt; case: RlebP.
Qed.

(** X12: with more than seven rows and more than one individual, a
    Hessian that is symmetric and invertible, and gradients that are
    defined, the notebook reports seven standard errors and each of them is
    a non-negative number: no square root of a negative variance is
    taken. *)
Theorem se_cluster_defined Phi nm grad hessian dt H Gm :
  hess Phi nm hessian dt = Some H -> H \in unitmx -> (H^T = H)%R ->
  G Phi nm grad dt = Some Gm ->
  (7 < Nobs dt)%N -> (1 < Nindiv dt)%N ->
  exists se,
    [/\ se_cluster Phi nm grad hessian dt = Some se, size se = 7%N
      & forall o, o \in se -> exists2 s, o = Some s & 0 <= s].
Proof. exact: se_cluster_some. Qed.

Lemma G_dataset8 :
  exists Gm, G Phi_one stationary_method zero_grad dataset8 = Some Gm.
Proof. by eexists; rewrite /G /gradients_indiv /gradients /=; reflexivity. Qed.

Lemma se_cluster_dataset8 :
  exists se,
    se_cluster Phi_one stationary_method zero_grad unit_hessian dataset8
    = Some se.
Proof.
have eH : hess Phi_one stationary_method unit_hessian dataset8
          = Some 1%:M%R by [].
have [Gm eG] := G_dataset8.
have nobs : (7 < Nobs dataset8)%N by [].
have nind : (1 < Nindiv dataset8)%N by [].
have [se [ese _ _]] :=
  se_cluster_some eH (unitmx1 _ _) (tr_scalar_mx _ _) eG nobs nind.
by exists se.
Qed.

(** X12 on eight rows of two subjects, with a unit Hessian and a zero
    gradient. *)
Lemma se_cluster_defined_witness :
  exists se,
    se_cluster Phi_one stationary_method zero_grad unit_hessian dataset8
    = Some se
    /\ size se = 7%N.
Proof.
have eH : hess Phi_one stationary_method unit_hessian dataset8
          = Some 1%:M%R by [].
have [Gm eG] := G_dataset8.
have nobs : (7 < Nobs dataset8)%N by [].
have nind : (1 < Nindiv dataset8)%N by [].
have [se [ese sz _]] :=
  se_cluster_defined eH (unitmx1 _ _) (tr_scalar_mx _ _) eG nobs nind.
by exists se.
Defined.

(** ** The adjustment at its edges *)

Lemma adjustment_none nobs k nindiv :
  adjustment nobs k nindiv = None <-> nobs = k \/ nindiv = 1%N.
Proof.
rewrite /adjustment /py_truediv.
case: (Z.eqb_spec (Z.of_nat nobs - Z.of_nat k) 0) => [e0|ne0] /=.
  by split=> // _; left; apply: Nat2Z.inj; apply: Zminus_eq.
rewrite /np_div; case: (eqVneq (IZR (Z.of_nat nindiv - 1)) 0) => [e1|ne1].
  split=> // _; right; apply: Nat2Z.inj; apply: Zminus_eq.
  exact: eq_IZR_R0.
split=> // -[e|e]; first by case: ne0; rewrite e Z.sub_diag.
by move: ne1; rewrite e /= eqxx.
Qed.

(** X13: the adjustment raises a division by zero exactly when the number
    of rows equals the number of parameters, seven, or there is a single
    cluster; the standard errors are then not computed. *)
Theorem adj_undefined Phi nm grad hessian dt :
  (adj Phi nm dt = None <-> Nobs dt = 7%N \/ Nindiv dt = 1%N)
  /\ (Nobs dt = 7%N \/ Nindiv dt = 1%N ->
      se_cluster Phi nm grad hessian dt = None).
Proof.
have iff_none : adj Phi nm dt = None <-> Nobs dt = 7%N \/ Nindiv dt = 1%N.
  by rewrite /adj adjustment_none K_eq7.
split=> // /iff_none a_none.
rewrite /se_cluster /varcov_estimates a_none.
by case: (hess_inv _ _ _ _) => [Hi|] //=; case: (G _ _ _ _).
Qed.

(** X13 on a table of a single subject. *)
Lemma adj_undefined_witness :
  Nindiv [:: prepare decision10] = 1%N
  /\ se_cluster Phi_one stationary_method zero_grad unit_hessian
       [:: prepare decision10] = None.
Proof.
split=> //.
have [_ none] := adj_undefined Phi_one stationary_method zero_grad
                   unit_hessian [:: prepare decision10].
by apply: none; right.
Defined.

(** X14: with more than one and fewer than seven rows and more than one
    individual the adjustment is negative, so that the variances it scales
    change sign. *)
Theorem adj_negative Phi nm dt :
  (1 < Nobs dt < 7)%N -> (1 < Nindiv dt)%N ->
  exists2 a, adj Phi nm dt = Some a & a < 0.
Proof.
move=> /andP [/ltP /lt_INR n_gt /ltP /lt_INR n_lt] /ltP /lt_INR c_gt.
have := @adjustment_none (Nobs dt) 7 (Nindiv dt).
rewrite /adj K_eq7 /adjustment /py_truediv.
case: (Z.eqb_spec _ _) => [e|_] /=.
  have := Nat2Z.inj _ _ (Zminus_eq _ _ e) => e7.
  by move: n_lt; rewrite e7 => /Rlt_irrefl.
move=> _; rewrite !minus_IZR -!INR_IZR_INZ np_div_def.
  by move: c_gt => /=; lra.
eexists; first by reflexivity.
move: n_gt n_lt c_gt => /=.
set N := INR (Nobs dt); set C := INR (Nindiv dt) => n_gt n_lt c_gt.
have -> : (N - 1) / (N - 7) * C / (C - 1)
          = - (((N - 1) * C) / ((7 - N) * (C - 1))) by field; lra.
have n7 : N < 7 by lra.
suff : 0 < ((N - 1) * C) / ((7 - N) * (C - 1)) by lra.
apply: Rdiv_lt_0_compat; apply: Rmult_lt_0_compat; lra.
Qed.

(** X14 on three rows of two subjects. *)
Lemma adj_negative_witness :
  exists2 a,
    adj Phi_one stationary_method
      [seq prepare (Decision w 0 1 0 0 0 10 0) | w <- [:: 1; 1; 2]%N]
    = Some a & a < 0.
Proof.
by apply: adj_negative.
Defined.

(** ** The hypothesis tests *)

Lemma pvalue_def Phi z : pvalue Phi z = Some (2 * (1 - Phi (Rabs z))).
Proof.
rewrite /pvalue /norm_cdf (Rltb_true Rlt_0_1) /=.
by congr (Some (2 * (1 - Phi _))); field.
Qed.

(** X15: the p-value of a z statistic is always defined and is two-sided:
    it depends on the absolute value of the statistic only, so estimates at
    the same distance above and below the tested value get the same
    p-value; when the cumulative distribution function is between 1/2 and 1
    on the non-negative numbers the p-value lies between 0 and 1. *)
Theorem pvalue_two_sided Phi z null d se :
  [/\ pvalue Phi z = Some (2 * (1 - Phi (Rabs z))),
      pvalue Phi (- z) = pvalue Phi z,
      (let? u := zvalue (null + d) null se in pvalue Phi u)
      = (let? u := zvalue (null - d) null se in pvalue Phi u)
    & (forall v, 0 <= v -> 1 / 2 <= Phi v <= 1) ->
      exists2 p, pvalue Phi z = Some p & 0 <= p <= 1].
Proof.
split; first exact: pvalue_def.
- by rewrite !pvalue_def Rabs_Ropp.
- rewrite /zvalue; case: se => [s|] //=; rewrite /np_div.
  case: ifP => //= _; rewrite !pvalue_def.
  have -> : (null - d - null) / s = - ((null + d - null) / s).
    by rewrite /Rdiv; lra.
  by rewrite Rabs_Ropp.
- move=> half; rewrite pvalue_def; eexists; first by reflexivity.
  by have := half _ (Rabs_pos z); lra.
Qed.

(** X15 for a statistic of 2, with a distribution function that is 1
    throughout. *)
Lemma pvalue_two_sided_witness :
  (forall v, 0 <= v -> 1 / 2 <= Phi_one v <= 1)
  /\ exists2 p, pvalue Phi_one 2 = Some p & 0 <= p <= 1.
Proof.
have half v : 0 <= v -> 1 / 2 <= Phi_one v <= 1 by rewrite /Phi_one; lra.
split=> //.
have [_ _ _ range] := pvalue_two_sided Phi_one 2 0 0 None.
exact: range.
Defined.

Lemma size_se_cluster Phi nm grad hessian dt se :
  se_cluster Phi nm grad hessian dt = Some se -> size se = 7%N.
Proof.
rewrite /se_cluster; case: (varcov_estimates _ _ _ _ _) => [V|] //= [<-].
by rewrite size_map size_np_diag K_eq7.
Qed.

(** X16: once the standard errors are computed the tests raise no index
    error: there are three statistics against 1, the k-th one made of the
    k-th estimate and the k-th standard error, and the statistic against 0
    is made of the estimate and the standard error at position 5; a
    statistic is not a finite number exactly when its standard error is
    [nan] or 0. *)
Theorem tests_line_up Phi nm grad hessian dt se :
  se_cluster Phi nm grad hessian dt = Some se ->
  [/\ exists zs,
        [/\ zvalues_1 Phi nm grad hessian dt = Some zs, size zs = 3%N
          & forall k, (k < 3)%N ->
              nth None zs k
              = zvalue (nth 0 (res Phi nm dt) k) 1 (nth None se k)],
      zvalue_a Phi nm grad hessian dt
      = zvalue (nth 0 (res Phi nm dt) 5) 0 (nth None se 5)
    & forall est null o,
        zvalue est null o = None <-> o = None \/ o = Some 0].
Proof.
move=> ese; have sz_se := size_se_cluster ese.
have sz_res : size (res Phi nm dt) = 7%N := K_eq7 Phi nm dt.
split.
- rewrite /zvalues_1 ese /=; eexists; split; first by reflexivity.
    by rewrite size_map size_zip !size_take sz_se sz_res.
  move=> k k3.
  have sz_zip : size (zip (take 3 (res Phi nm dt)) (take 3 se)) = 3%N.
    by rewrite size_zip !size_take sz_se sz_res.
  have sz_eq : size (take 3 (res Phi nm dt)) = size (take 3 se).
    by rewrite !size_take sz_se sz_res.
  have k_zip : (k < size (zip (take 3 (res Phi nm dt)) (take 3 se)))%N.
    by rewrite sz_zip.
  by rewrite (nth_map (0, None) _ _ k_zip) nth_zip //= !nth_take.
- by rewrite /zvalue_a ese /= sz_se sz_res.
- move=> est null [s|] /=; last by split=> // _; left.
  rewrite /np_div; case: (eqVneq s 0) => [->|/eqP s0].
    by split=> // _; right.
  by split=> // -[|[]].
Qed.

(** X16 on eight rows of two subjects, with a unit Hessian and a zero
    gradient. *)
Lemma tests_line_up_witness :
  exists se zs,
    [/\ se_cluster Phi_one stationary_method zero_grad unit_hessian dataset8
        = Some se,
        zvalues_1 Phi_one stationary_method zero_grad unit_hessian dataset8
        = Some zs
      & size zs = 3%N].
Proof.
have [se ese] := se_cluster_dataset8.
have [[zs [ezs sz _]] _ _] := tests_line_up ese.
by exists se, zs.
Defined.

(** ** Rounding to three decimals *)

Lemma Int_part_between y k :
  IZR k <= y < IZR k + 1 -> Int_part y = k /\ frac_part y = y - IZR k.
Proof.
move=> [lo hi]; have ek : k = Int_part y by apply: Int_part_spec; lra.
by split=> //; rewrite /frac_part -ek.
Qed.

Lemma np_rint_error y : - (1 / 2) <= IZR (np_rint y) - y <= 1 / 2.
Proof.
have [r0 r1] := base_fp y; have er : frac_part y = y - IZR (Int_part y) by [].
have e1 := plus_IZR (Int_part y) 1.
rewrite /np_rint.
case: RltbP => [lt_half|ge_half]; first by lra.
case: RltbP => [gt_half|le_half]; first by lra.
by case: ifP => _; lra.
Qed.

Lemma np_rint_IZR k : np_rint (IZR k) = k.
Proof.
have [ei ef] : Int_part (IZR k) = k /\ frac_part (IZR k) = IZR k - IZR k.
  by apply: Int_part_between; lra.
have h : IZR k - IZR k < 1 / 2 by lra.
by rewrite /np_rint ei ef (Rltb_true h).
Qed.

Lemma np_rint_tie k :
  np_rint (IZR k + 1 / 2) = if Z.even k then k else (k + 1)%Z.
Proof.
have [ei ef] : Int_part (IZR k + 1 / 2) = k
               /\ frac_part (IZR k + 1 / 2) = IZR k + 1 / 2 - IZR k.
  by apply: Int_part_between; lra.
have h1 : 1 / 2 <= IZR k + 1 / 2 - IZR k by lra.
have h2 : IZR k + 1 / 2 - IZR k <= 1 / 2 by lra.
by rewrite /np_rint ei ef (Rltb_false h1) (Rltb_false h2).
Qed.

Lemma np_rint_monotone y1 y2 : y1 <= y2 -> (np_rint y1 <= np_rint y2)%Z.
Proof.
move=> y12; case: (Z_le_gt_dec (np_rint y1) (np_rint y2)) => // gt.
have {gt} gt1 : (np_rint y2 + 1 <= np_rint y1)%Z.
  by apply: Zlt_le_succ; exact: Z.gt_lt.
have := IZR_le _ _ gt1; rewrite plus_IZR => gap.
have [_ hi1] := np_rint_error y1; have [lo2 _] := np_rint_error y2.
have ey : y1 = y2 by lra.
by move: gap; rewrite ey; lra.
Qed.

(** X17: rounding to three decimals moves a number by at most 0.0005, gives
    a multiple of 0.001, leaves the multiples of 0.001 alone (so rounding
    twice is rounding once), preserves the order, and sends a number
    halfway between two multiples of 0.001 to the even one. *)
Theorem np_round3_spec v w k :
  [/\ - (1 / 2000) <= np_round3 v - v <= 1 / 2000,
      exists j, np_round3 v = IZR j / 1000,
      np_round3 (IZR k / 1000) = IZR k / 1000
      /\ np_round3 (np_round3 v) = np_round3 v,
      v <= w -> np_round3 v <= np_round3 w
    & np_round3 ((IZR k + 1 / 2) / 1000)
      = IZR (if Z.even k then k else (k + 1)%Z) / 1000].
Proof.
have fix_k j : np_round3 (IZR j / 1000) = IZR j / 1000.
  rewrite /np_round3.
  have -> : IZR j / 1000 * 1000 = IZR j by field.
  by rewrite np_rint_IZR.
split.
- by have := np_rint_error (v * 1000); rewrite /np_round3; lra.
- by exists (np_rint (v * 1000)).
- by split; [exact: fix_k | rewrite {2}/np_round3 fix_k].
- move=> vw; rewrite /np_round3.
  have /np_rint_monotone/IZR_le : v * 1000 <= w * 1000 by lra.
  by lra.
- rewrite /np_round3.
  have -> : (IZR k + 1 / 2) / 1000 * 1000 = IZR k + 1 / 2 by field.
  by rewrite np_rint_tie.
Qed.

(** X17 for the estimate of beta printed by the notebook and a larger
    number. *)
Lemma np_round3_spec_witness :
  834996 / 1000000 <= 835 / 1000
  /\ np_round3 (834996 / 1000000) <= np_round3 (835 / 1000).
Proof.
have le : 834996 / 1000000 <= 835 / 1000 by lra.
split=> //.
have [_ _ _ mono _] := np_round3_spec (834996 / 1000000) (835 / 1000) 0.
exact: mono.
Defined.

(** ** The sandwich on an invertible Hessian *)

Lemma value_hessian_opp n (f : 'rV[R]_n -> option R) v :
  value_hessian (fun p => omap Ropp (f p)) v
  = omap (@GRing.opp _) (value_hessian f v).
Proof.
rewrite /value_hessian; case: (f v) => [y|] //=.
by congr Some; exact: scaleNr.
Qed.

Lemma rV_of_seqK (s : seq R) : seq_of_rV (rV_of_seq (size s) s) = s.
Proof.
apply: (@eq_from_nth _ 0); first by rewrite size_seq_of_rV.
move=> i; rewrite size_seq_of_rV => i_lt.
rewrite /seq_of_rV (nth_map (Ordinal i_lt)) ?size_enum_ord // mxE.
by rewrite nth_enum_ord.
Qed.

Lemma nm_loop_stationary n f budget it (s : 'rV[R]_n) :
  nm_loop (stationary_method n) f budget it s = (s, (it + budget)%N).
Proof.
elim: budget it => [|b IH] it /=; first by rewrite addn0.
by rewrite IH addSnnS.
Qed.

Lemma res_stationary Phi dt : res Phi stationary_method dt = par_init.
Proof.
rewrite /res /sol /minimize /nm_minimize nm_loop_stationary /=.
exact: (rV_of_seqK par_init).
Qed.

Lemma columns_dataset8 : mle_args dataset8 = nseq 8 row10.
Proof.
have ne : (10 : R) <> 110 by lra.
rewrite /mle_args /= /columns /= /astype_int eqxx (eqr_false ne).
by have -> : 0 / 10 = 0 by lra.
Qed.

(** With a distribution function that has reached 1, a row at the lower
    boundary has probability 0 and contributes the logarithm of 1.0e-4. *)
Lemma row_loglike_saturated th :
  0 < phi th -> 0 < delta th -> 0 < beta th -> 0 < betahat th ->
  gamma th <> 1 -> 0 < sigma th ->
  row_loglike Phi_one th row10 = Some (ln tiny).
Proof.
move=> ph0 d0 b0 bh0 g1 s0.
have [_ epc] := @predchoice_pos th row10 ph0 d0 b0 bh0 Rlt_0_1 g1.
rewrite /row_loglike (prob_def _ s0 epc) /= /Phi_one.
set dens := gaussian _ _ _.
have -> : (1 - 1 - 0) * dens + 1 * (1 - 1) + 0 * 1 = 0 by lra.
by rewrite clamp_0 anp_log_def //; exact: (proj1 tiny_bounds).
Qed.

Lemma loglike_dataset8 :
  exists2 c, loglike Phi_one par_init (mle_args dataset8) = Some c & c <> 0.
Proof.
have eth : unpack par_init = Some (Theta (8 / 10) 1 1 2 500 7 40) by [].
have erow : row_loglike Phi_one (Theta (8 / 10) 1 1 2 500 7 40) row10
            = Some (ln tiny).
  by apply: row_loglike_saturated => /=; lra.
rewrite /loglike (negloglike_rows _ _ eth) columns_dataset8 /= erow /=.
eexists; first by reflexivity.
have : ln tiny < 0.
  have [t0 t1] := tiny_bounds.
  by rewrite -ln_1; apply: ln_increasing.
by lra.
Qed.

(** C1 on eight rows of two subjects, with a Hessian routine that gives an
    invertible matrix at the estimate. *)
Lemma se_cluster_sandwich_witness :
  exists H Gm a se,
    [/\ hess_loglike Phi_one stationary_method value_hessian dataset8
        = Some H,
        H \in unitmx,
        G Phi_one stationary_method zero_grad dataset8 = Some Gm,
        adj Phi_one stationary_method dataset8 = Some a
      & se_cluster Phi_one stationary_method zero_grad value_hessian
          dataset8 = Some se
        /\ size se = K Phi_one stationary_method dataset8].
Proof.
have [c ec c0] := loglike_dataset8.
have eH : hess_loglike Phi_one stationary_method value_hessian dataset8
          = Some (c *: 1%:M)%R.
  by rewrite /hess_loglike /value_hessian /K rV_of_seqK res_stationary ec.
have unitH :
    (c *: 1%:M : 'M[R]_(K Phi_one stationary_method dataset8))%R \in unitmx.
  by rewrite unitmxZ ?unitmx1 // unitfE; apply/eqP.
have eG := G_zero_grad Phi_one stationary_method dataset8.
have eK := K_eq7 Phi_one stationary_method dataset8.
have k_lt : (K Phi_one stationary_method dataset8 < Nobs dataset8)%N.
  by rewrite eK.
have c_gt : (1 < Nindiv dataset8)%N by [].
have ea := adjustment_def k_lt c_gt.
have [se [ese sz _ _]] :=
  @se_cluster_sandwich Phi_one stationary_method zero_grad value_hessian
    value_hessian_opp dataset8 _ _ _ eH unitH eG ea.
by eexists _, _, _, se; split; [exact: eH | | exact: eG | exact: ea |].
Defined.

(** ** What a call of [negloglike] reads and changes *)

Lemma steady_lift (A : Type) (o : option A) w1 w2 : steady (py_lift o) w1 w2.
Proof. by exists o. Qed.

Lemma steady_bind (A B : Type) (m : py A) (k : A -> py B) w1 w2 :
  steady m w1 w2 ->
  (forall a, m w1 = (Some a, w1) -> steady (k a) w1 w2) ->
  steady (py_bind m k) w1 w2.
Proof.
move=> [[a|] [e1 e2]] step; rewrite /steady /py_bind e1 e2; last by exists None.
exact: step.
Qed.

Lemma getattr_not_rand v attr v' :
  attr != "rand"%string -> getattr v attr = Some v' -> v' <> VFun Rand.
Proof.
move=> not_rand; case: v => //= -[].
- by do 4![case: ifP => _; first by case=> <-].
- by rewrite (negbTE not_rand).
- by do 2![case: ifP => _; first by case=> <-].
Qed.

Section SteadyEval.

Variables (Phi : R -> R) (sample : nat -> R).

Lemma apply_builtin_steady b args w1 w2 :
  b <> Rand -> steady (apply_builtin Phi sample b args) w1 w2.
Proof.
case: b => // _; case: args => [|a1 [|a2 [|a3 [|a4 args]]]] /=;
  exact: steady_lift.
Qed.

Lemma call_value_steady vf args w1 w2 :
  vf <> VFun Rand -> steady (call_value Phi sample vf args) w1 w2.
Proof.
case: vf => [|u|s|m|b] not_rand; try exact: steady_lift.
by apply: apply_builtin_steady => eb; case: not_rand; rewrite eb.
Qed.

Variables (lnames gl : seq string) (w1 w2 : world).

Hypothesis same_globals : {in gl, globals w1 =1 globals w2}.

Lemma load_steady l id :
  (id \in lnames) || (id \in gl) -> steady (load_name lnames l id) w1 w2.
Proof.
rewrite /steady /load_name; case: ifP => [_ _|_ /= id_gl]; first by eexists.
by rewrite (same_globals id_gl); eexists.
Qed.

Lemma attribute_not_rand l e attr w o w' :
  attr != "rand"%string ->
  eval Phi sample lnames l (Attribute e attr) w = (o, w') ->
  o <> Some (VFun Rand).
Proof.
move=> not_rand; rewrite /= /py_bind.
case: (eval _ _ _ _ _ _) => [[v|] w0] [<- _] //.
rewrite /py_lift; case e': (getattr v attr) => [v'|] // [ev'].
exact: (getattr_not_rand not_rand e').
Qed.

Lemma eval_steady l e :
  framed lnames gl e -> steady (eval Phi sample lnames l e) w1 w2.
Proof.
have callee f vf :
    (framed lnames gl f -> steady (eval Phi sample lnames l f) w1 w2) ->
    (if f is Attribute f1 attr
     then (attr != "rand"%string) && framed lnames gl f1 else false) ->
    steady (eval Phi sample lnames l f) w1 w2
    /\ (eval Phi sample lnames l f w1 = (Some vf, w1) -> vf <> VFun Rand).
  case: f => // f1 attr IH /andP [not_rand fr]; split; first exact: IH.
  by move/(attribute_not_rand not_rand) => ne evf; case: ne; rewrite evf.
elim: e => [id|c|e1 IH attr|e1 IH1 op e2 IH2|e1 IH|f IHf|f IHf e1 IH1
           |f IHf e1 IH1 e2 IH2 e3 IH3] /=.
- exact: load_steady.
- by move=> _; eexists.
- by move/IH => st; apply: steady_bind => // v _; exact: steady_lift.
- move=> /andP [/IH1 st1 /IH2 st2]; apply: steady_bind => // v1 _.
  by apply: steady_bind => // v2 _; exact: steady_lift.
- by move/IH => st; apply: steady_bind => // v _; exact: steady_lift.
- move=> ok; apply: steady_bind => [|vf evf].
    by have [] := callee f VNone IHf ok.
  by apply: call_value_steady; have [_] := callee f vf IHf ok; apply.
- move=> /andP [ok /IH1 st1]; apply: steady_bind => [|vf evf].
    by have [] := callee f VNone IHf ok.
  apply: steady_bind => // v1 _.
  by apply: call_value_steady; have [_] := callee f vf IHf ok; apply.
- move=> /and4P [ok /IH1 st1 /IH2 st2 /IH3 st3].
  apply: steady_bind => [|vf evf]; first by have [] := callee f VNone IHf ok.
  apply: steady_bind => // v1 _; apply: steady_bind => // v2 _.
  apply: steady_bind => // v3 _.
  by apply: call_value_steady; have [_] := callee f vf IHf ok; apply.
Qed.

Lemma exec_steady body l :
  all (fun st => framed lnames gl (expr_of st)) body ->
  steady (exec Phi sample lnames body l) w1 w2.
Proof.
elim: body l => [|[id e|ids e|e] body IH] l /=; first by eexists.
- move=> /andP [/eval_steady st /IH stb]; apply: steady_bind => [|v _].
    exact: st.
  exact: stb.
- move=> /andP [/eval_steady st /IH stb]; apply: steady_bind => [|v _].
    exact: st.
  by apply: steady_bind => [|vs _]; [exact: steady_lift | exact: stb].
- by move=> /andP [/eval_steady st _]; exact: st.
Qed.

End SteadyEval.

Lemma call_steady Phi sample gl f args w1 w2 :
  {in gl, globals w1 =1 globals w2} -> framed_def gl f ->
  steady (call Phi sample f args) w1 w2.
Proof.
move=> same ok; rewrite /call; case: ifP => _; last exact: steady_lift.
exact: (exec_steady Phi sample same _ ok).
Qed.

Lemma negloglike_framed : framed_def imports negloglike_def.
Proof. by []. Qed.

(** For contrast, what the state is for: a function that draws reads the
    generator and advances it, and a function that names the table reads
    the global namespace. *)
Lemma draw_and_peek Phi sample w :
  globals w "anp"%string = Some (VModule Anp) ->
  call Phi sample draw_def [::] w
  = (Some (VNum (Some (sample (rng w)))), World (globals w) (rng w).+1)
  /\ call Phi sample peek_def [::] w = (globals w "dt"%string, w).
Proof. by move=> e; rewrite /call /= /py_bind /load_name /= e. Qed.

(** ** The interpreter and the embedding agree *)

Lemma vnth_arr s i : (i < size s)%N -> vnth (VArr s) i = nth None s i.
Proof.
move=> i_lt /=; case: eqP => // sz1.
by move: i_lt; rewrite sz1 ltnS leqn0 => /eqP ->; rewrite nth0.
Qed.

Lemma rep_shape rows k v F :
  rep rows k v F -> vshape v = Some (if k then Some (size rows) else None).
Proof. by case: k => [->|[u -> _]] //=; rewrite size_map. Qed.

Lemma rep_vnth rows k v F i a0 :
  rep rows k v F -> (i < size rows)%N -> vnth v i = F (nth a0 rows i).
Proof.
case: k => [->|[u -> Fu]] i_lt; last by rewrite /= Fu.
by rewrite vnth_arr ?size_map // (nth_map a0).
Qed.

Lemma rep_scalar rows v F i a : rep rows false v F -> vnth v i = F a.
Proof. by case=> u -> Fu; rewrite /= Fu. Qed.

Lemma rep_ext rows k v F F' :
  (forall a, F a = F' a) -> rep rows k v F -> rep rows k v F'.
Proof.
move=> FF'; case: k => [->|[u -> Fu]] /=; first by congr VArr; apply: eq_map.
by exists u => // a; rewrite -FF'.
Qed.

Lemma build_rep rows k g F :
  (if k then forall i a0, (i < size rows)%N -> g i = F (nth a0 rows i)
   else forall a, g 0%N = F a) ->
  rep rows k (vbuild (if k then Some (size rows) else None) g) F.
Proof.
case: k => /= [pointwise|const]; last first.
  by exists (g 0%N) => // a; rewrite const.
congr VArr; apply: (@eq_from_nth _ None); first by rewrite size_mkseq size_map.
move=> i; rewrite size_mkseq => i_lt; rewrite nth_mkseq //.
case: rows i_lt pointwise => // a0 rs i_lt pointwise.
by rewrite (nth_map a0) // (pointwise i a0).
Qed.

Lemma join_shape_rep n k1 k2 :
  join_shape (if k1 then Some n else None) (if k2 then Some n else None)
  = Some (if k1 || k2 then Some n else None).
Proof. by case: k1 k2 => [] [] //=; rewrite eqxx. Qed.

Lemma rep_bcast1 rows f k v F :
  rep rows k v F ->
  exists2 v', bcast1 f v = Some v' & rep rows k v' (fun a => f (F a)).
Proof.
move=> r; rewrite /bcast1 (rep_shape r) /=; eexists; first by reflexivity.
apply: build_rep; case: k r => r /=.
  by move=> i a0 i_lt; rewrite (rep_vnth a0 r i_lt).
by move=> a; rewrite (rep_scalar 0 a r).
Qed.

Lemma rep_bcast2 rows f k1 k2 v1 v2 F1 F2 :
  rep rows k1 v1 F1 -> rep rows k2 v2 F2 ->
  exists2 v, bcast2 f v1 v2 = Some v
           & rep rows (k1 || k2) v (fun a => f (F1 a) (F2 a)).
Proof.
move=> r1 r2; rewrite /bcast2 (rep_shape r1) (rep_shape r2) /=.
rewrite join_shape_rep /=; eexists; first by reflexivity.
apply: build_rep; case: k1 k2 r1 r2 => [] [] r1 r2 /=;
  try by move=> i a0 i_lt; rewrite (rep_vnth a0 r1 i_lt) (rep_vnth a0 r2 i_lt).
by move=> a; rewrite (rep_scalar 0 a r1) (rep_scalar 0 a r2).
Qed.

Lemma rep_bcast3 rows f k1 k2 k3 v1 v2 v3 F1 F2 F3 :
  rep rows k1 v1 F1 -> rep rows k2 v2 F2 -> rep rows k3 v3 F3 ->
  exists2 v, bcast3 f v1 v2 v3 = Some v
           & rep rows [|| k1, k2 | k3] v (fun a => f (F1 a) (F2 a) (F3 a)).
Proof.
move=> r1 r2 r3.
rewrite /bcast3 (rep_shape r1) (rep_shape r2) (rep_shape r3) /=.
rewrite join_shape_rep /= join_shape_rep /= orbA.
eexists; first by reflexivity.
apply: build_rep; case: k1 k2 k3 r1 r2 r3 => [] [] [] r1 r2 r3 /=;
  try by move=> i a0 i_lt;
         rewrite (rep_vnth a0 r1 i_lt) (rep_vnth a0 r2 i_lt)
                 (rep_vnth a0 r3 i_lt).
by move=> a; rewrite (rep_scalar 0 a r1) (rep_scalar 0 a r2)
                     (rep_scalar 0 a r3).
Qed.

Section Denotation.

Variables (Phi : R -> R) (sample : nat -> R) (w : world).
Variables (lnames : seq string) (rows : seq args_row).

Hypothesis anp_global : ("anp"%string \in lnames) = false.
Hypothesis norm_global : ("norm"%string \in lnames) = false.
Hypothesis w_imported : imported w.

Local Notation denotes := (denotes Phi sample lnames rows w).

Lemma den_ext l e k F F' :
  denotes l e k F -> (forall a, F a = F' a) -> denotes l e k F'.
Proof. by move=> [v ev rv] FF'; exists v => //; exact: rep_ext rv. Qed.

Lemma den_const l c : denotes l (Constant c) false (fun=> Some c).
Proof. by eexists; [reflexivity | exists (Some c)]. Qed.

Lemma den_known l id k v F :
  (id \in lnames) = true -> l id = Some v -> rep rows k v F ->
  denotes l (Name id) k F.
Proof. by move=> loc lid rv; exists v => //; rewrite /= /load_name loc lid. Qed.

Lemma den_scalar l id u :
  (id \in lnames) = true -> l id = Some (VNum u) ->
  denotes l (Name id) false (fun=> u).
Proof. by move=> loc lid; apply: den_known loc lid _; exists u. Qed.

Lemma den_array l id F :
  (id \in lnames) = true -> l id = Some (VArr [seq F a | a <- rows]) ->
  denotes l (Name id) true F.
Proof. by move=> loc lid; exact: den_known loc lid _. Qed.

Lemma den_binop l e1 e2 op k1 k2 F1 F2 k :
  denotes l e1 k1 F1 -> denotes l e2 k2 F2 -> k = k1 || k2 ->
  denotes l (BinOp e1 op e2) k (fun a => elem_binop op (F1 a) (F2 a)).
Proof.
move=> [v1 ev1 r1] [v2 ev2 r2] ->.
have [v ev rv] := rep_bcast2 (elem_binop op) r1 r2.
by exists v => //; rewrite /= /py_bind ev1 ev2 /py_lift ev.
Qed.

Lemma den_usub l e k F :
  denotes l e k F -> denotes l (USub e) k (fun a => omap Ropp (F a)).
Proof.
move=> [v ev rv]; have [v' ev' rv'] := rep_bcast1 (omap Ropp) rv.
by exists v' => //; rewrite /= /py_bind ev /py_lift ev'.
Qed.

Lemma eval_anp l attr :
  eval Phi sample lnames l (Attribute (Name "anp") attr) w
  = (getattr (VModule Anp) attr, w).
Proof.
case: w_imported => e _.
by rewrite /= /py_bind /load_name anp_global e.
Qed.

Lemma eval_norm l attr :
  eval Phi sample lnames l (Attribute (Name "norm") attr) w
  = (getattr (VModule Norm) attr, w).
Proof.
case: w_imported => _ e.
by rewrite /= /py_bind /load_name norm_global e.
Qed.

Lemma eval_usub l e :
  eval Phi sample lnames l (USub e) w
  = (do v <- eval Phi sample lnames l e; py_lift (bcast1 (omap Ropp) v)) w.
Proof. by []. Qed.

Lemma eval_call1 l f e :
  eval Phi sample lnames l (Call1 f e) w
  = (do vf <- eval Phi sample lnames l f;
     do v1 <- eval Phi sample lnames l e;
     call_value Phi sample vf [:: v1]) w.
Proof. by []. Qed.

Lemma eval_call3 l f e1 e2 e3 :
  eval Phi sample lnames l (Call3 f e1 e2 e3) w
  = (do vf <- eval Phi sample lnames l f;
     do v1 <- eval Phi sample lnames l e1;
     do v2 <- eval Phi sample lnames l e2;
     do v3 <- eval Phi sample lnames l e3;
     call_value Phi sample vf [:: v1; v2; v3]) w.
Proof. by []. Qed.

Lemma den_log l e k F :
  denotes l e k F ->
  denotes l (Call1 (Attribute (Name "anp") "log") e) k
    (fun a => obind anp_log (F a)).
Proof.
move=> [v ev rv]; have [v' ev' rv'] := rep_bcast1 (obind anp_log) rv.
exists v' => //.
by rewrite eval_call1 /py_bind eval_anp ev /= /py_lift ev'.
Qed.

Lemma den_cdf l e k F :
  denotes l e k F ->
  denotes l (Call1 (Attribute (Name "norm") "cdf") e) k
    (fun a => omap Phi (F a)).
Proof.
move=> [v ev rv]; have [v' ev' rv'] := rep_bcast1 (omap Phi) rv.
exists v' => //.
by rewrite eval_call1 /py_bind eval_norm ev /= /py_lift ev'.
Qed.

Lemma den_pdf l e1 e2 e3 k1 k2 k3 F1 F2 F3 k :
  denotes l e1 k1 F1 -> denotes l e2 k2 F2 -> denotes l e3 k3 F3 ->
  k = [|| k1, k2 | k3] ->
  denotes l (Call3 (Attribute (Name "norm") "pdf") e1 e2 e3) k
    (fun a => elem_pdf (F1 a) (F2 a) (F3 a)).
Proof.
move=> [v1 ev1 r1] [v2 ev2 r2] [v3 ev3 r3] ->.
have [v ev rv] := rep_bcast3 elem_pdf r1 r2 r3.
exists v => //.
by rewrite eval_call3 /py_bind eval_norm ev1 ev2 ev3 /= /py_lift ev.
Qed.

Lemma den_where l e1 e2 e3 k1 k2 k3 F1 F2 F3 k :
  denotes l e1 k1 F1 -> denotes l e2 k2 F2 -> denotes l e3 k3 F3 ->
  k = [|| k1, k2 | k3] ->
  denotes l (Call3 (Attribute (Name "anp") "where") e1 e2 e3) k
    (fun a => elem_where (F1 a) (F2 a) (F3 a)).
Proof.
move=> [v1 ev1 r1] [v2 ev2 r2] [v3 ev3 r3] ->.
have [v ev rv] := rep_bcast3 elem_where r1 r2 r3.
exists v => //.
by rewrite eval_call3 /py_bind eval_anp ev1 ev2 ev3 /= /py_lift ev.
Qed.

(** The sum over the rows, the one operation of the function that is not
    elementwise. *)
Lemma eval_sum l e F :
  denotes l e true F ->
  eval Phi sample lnames l (Call1 (Attribute (Name "anp") "sum") e) w
  = (Some (VNum (omap sumR (oseq [seq F a | a <- rows]))), w).
Proof.
by move=> [v ev rv]; rewrite eval_call1 /py_bind eval_anp ev /= rv.
Qed.

End Denotation.

Lemma exec_assignP Phi sample lnames rows w id e l k F :
  denotes Phi sample lnames rows w l e k F ->
  exists2 v, rep rows k v F
    & forall rest,
        exec Phi sample lnames (Assign id e :: rest) l w
        = exec Phi sample lnames rest (update l id v) w.
Proof. by move=> [v ev rv]; exists v => // rest; rewrite /= /py_bind ev. Qed.

Lemma exec_assign Phi sample lnames id e rest l w v :
  eval Phi sample lnames l e w = (Some v, w) ->
  exec Phi sample lnames (Assign id e :: rest) l w
  = exec Phi sample lnames rest (update l id v) w.
Proof. by move=> ev; rewrite /= /py_bind ev. Qed.

Lemma exec_tuple Phi sample lnames ids e rest l w v vs :
  eval Phi sample lnames l e w = (Some v, w) ->
  unpack_value (size ids) v = Some vs ->
  exec Phi sample lnames (AssignTuple ids e :: rest) l w
  = exec Phi sample lnames rest (update_all l ids vs) w.
Proof. by move=> ev evs; rewrite /= /py_bind ev /py_lift evs. Qed.

Lemma exec_tuple_error Phi sample lnames ids e rest l w v :
  eval Phi sample lnames l e w = (Some v, w) ->
  unpack_value (size ids) v = None ->
  exec Phi sample lnames (AssignTuple ids e :: rest) l w = (None, w).
Proof. by move=> ev evs; rewrite /= /py_bind ev /py_lift evs. Qed.

Ltac den :=
  first
    [ eapply den_const
    | eapply den_scalar; [reflexivity | reflexivity]
    | eapply den_array; [reflexivity | reflexivity]
    | eapply den_known; [reflexivity | reflexivity | eassumption]
    | eapply den_usub; den
    | eapply den_log; [reflexivity | eassumption | den]
    | eapply den_cdf; [reflexivity | eassumption | den]
    | eapply den_binop; [den | den | reflexivity]
    | eapply den_pdf;
        [reflexivity | eassumption | den | den | den | reflexivity]
    | eapply den_where;
        [reflexivity | eassumption | den | den | den | reflexivity] ].

Arguments exec : simpl never.
Arguments eval : simpl never.
Arguments update_all : simpl never.
Arguments update : simpl never.

Section Agreement.

Variables (Phi : R -> R) (sample : nat -> R) (w : world).
Hypothesis w_imported : imported w.

Lemma call_negloglike params rows :
  exists2 o,
    call Phi sample negloglike_def (py_args params rows) w = (o, w)
    & as_number o = negloglike Phi params rows.
Proof.
set lnames := local_names negloglike_def.
have anp_g : ("anp"%string \in lnames) = false by [].
have norm_g : ("norm"%string \in lnames) = false by [].
rewrite /call /= -/lnames.
case e7: (size params == 7%N); last first.
  set l0 := update_all _ _ _.
  have e0 : eval Phi sample lnames l0 (Name "params") w
            = (Some (VArr [seq Some p | p <- params]), w) by [].
  rewrite (exec_tuple_error _ e0) /=; first by rewrite size_map e7.
  exists None => //=; rewrite /negloglike.
  case eth: (unpack params) => [th|] //; move: e7.
  by have /unpackP -> : exists th, unpack params = Some th by exists th.
case: params e7 => [|b [|bh [|d [|g [|p [|al [|s [|? ?]]]]]]]] //= _.
set l0 := update_all _ _ _.
have e0 : eval Phi sample lnames l0 (Name "params") w
          = (Some (VArr [seq Some v | v <- [:: b; bh; d; g; p; al; s]]), w).
  by [].
pose th := Theta b bh d g p al s.
rewrite (@exec_tuple _ _ _ _ _ _ _ _ _
           [seq VNum (Some v) | v <- [:: b; bh; d; g; p; al; s]] e0) //=.
set l1 := update_all _ _ _.
have den_pc :
    denotes Phi sample lnames rows w l1 predchoice_expr true (predchoice th).
  rewrite /predchoice_expr; eapply den_ext; first by den.
  move=> a; rewrite /predchoice /th /elem_binop /lift2 /=.
  case: (np_power d _) => [dn|] //=; case: (np_power b _) => [bt|] //=.
  by case: (np_power bh _) => [bp|] //=; case: (np_div 1 _).
have [vpc rpc ->] := exec_assignP "predchoice" den_pc.
set l2 := update l1 _ _.
have den_prob :
    denotes Phi sample lnames rows w l2 prob_expr true (prob Phi th).
  rewrite /prob_expr; eapply den_ext; first by den.
  move=> a; rewrite /prob /elem_binop /elem_pdf /lift2 /=.
  case: (predchoice th a) => [pc|] //=.
  by case: (norm_pdf _ pc s) => [dens|] //=; case: (np_div _ s).
have [vp rp ->] := exec_assignP "prob" den_prob.
set l3 := update l2 _ _.
have den_g0 :
    denotes Phi sample lnames rows w l3 guard0_expr true
      (fun a => omap (fun q => if q == 0 then tiny else q) (prob Phi th a)).
  rewrite /guard0_expr; eapply den_ext; first by den.
  move=> a; rewrite /elem_where /elem_binop /=.
  case: (prob Phi th a) => [q|] /=; last by rewrite eqxx.
  rewrite /truthy /astype_int /tiny; case: (q == 0) => /=.
    by rewrite (eqr_false R1_neq_R0).
  by rewrite eqxx.
have [vg0 rg0 ->] := exec_assignP "prob" den_g0.
set l4 := update l3 _ _.
have den_g1 :
    denotes Phi sample lnames rows w l4 guard1_expr true
      (fun a => omap clamp (prob Phi th a)).
  rewrite /guard1_expr; eapply den_ext; first by den.
  move=> a; rewrite /elem_where /elem_binop /=.
  case: (prob Phi th a) => [q|] /=; last by rewrite eqxx.
  rewrite /truthy /clamp /astype_int /tiny; case: (_ == 1) => /=.
    by rewrite (eqr_false R1_neq_R0).
  by rewrite eqxx.
have [vg1 rg1 ->] := exec_assignP "prob" den_g1.
set l5 := update l4 _ _.
have den_log :
    denotes Phi sample lnames rows w l5
      (Call1 (Attribute (Name "anp") "log") (Name "prob")) true
      (row_loglike Phi th).
  eapply den_ext; first by den.
  by move=> a; rewrite /row_loglike; case: (prob Phi th a).
have e_sum := eval_sum anp_g w_imported den_log.
have e_negll : eval Phi sample lnames l5 negll_expr w
    = (Some (VNum (omap Ropp (omap sumR
         (oseq [seq row_loglike Phi th a | a <- rows])))), w).
  by rewrite /negll_expr eval_usub /py_bind e_sum.
rewrite (exec_assign _ _ e_negll); set l6 := update l5 _ _.
eexists; first by reflexivity.
rewrite (@negloglike_rows _ _ th) //=.
by case: (oseq _).
Qed.

End Agreement.

(** C8: a call of [negloglike] depends only on its arguments and on the two
    imports it names: in two interpreter states that agree on [anp] and
    [norm], whatever else their global namespaces hold and whatever the
    state of the random generator, the call returns the same result (value
    or exception) and leaves the state as it was, so that a second
    evaluation on the same arguments returns the same value again; with the
    imports of cell 1 in force and the columns of a table as arguments the
    value is the one of the function [negloglike] of the embedding. *)
Theorem negloglike_deterministic Phi sample w1 w2 args params rows :
  {in imports, globals w1 =1 globals w2} ->
  [/\ exists o,
        call Phi sample negloglike_def args w1 = (o, w1)
        /\ call Phi sample negloglike_def args w2 = (o, w2),
      forall o w,
        call Phi sample negloglike_def args w1 = (o, w) ->
        call Phi sample negloglike_def args w = (o, w)
    & imported w1 ->
      exists2 o,
        call Phi sample negloglike_def (py_args params rows) w1 = (o, w1)
        & as_number o = negloglike Phi params rows].
Proof.
move=> same.
have [o [e1 e2]] :=
  call_steady Phi sample args same negloglike_framed.
split; [by exists o | by move=> o' w; rewrite e1 => -[<- <-] |] => w1_imported.
exact: call_negloglike.
Qed.

(** C8 on one row at the starting parameters, in the state after the
    imports and in a state that also holds a global [dt] and in which
    numbers have been drawn. *)
Lemma negloglike_deterministic_witness :
  exists o,
    call Phi_one INR negloglike_def (py_args par_init [:: row10]) world0
    = (o, world0)
    /\ call Phi_one INR negloglike_def (py_args par_init [:: row10]) world1
       = (o, world1).
Proof.
have same : {in imports, globals world0 =1 globals world1}.
  by move=> id; rewrite !inE => /orP [] /eqP ->.
have [det _ _] :=
  @negloglike_deterministic Phi_one INR world0 world1
    (py_args par_init [:: row10]) par_init [:: row10] same.
exact: det.
Defined.
